(** * lexless: the sample-cutting engine, the normalizer and the
      interviewer selector

    A shallow embedding of [lexless/audio_processor.py], of the pure part
    of [lexless/speaker_diarization.py], and of the handling of titles in
    [lexless/main.py] and [lexless/downloader.py].

    Numbers.  Python floats (timestamps, sample amplitudes, durations) are
    idealised as the rationals [Q]: every arithmetic operation is exact, and
    there is neither NaN nor infinity.  Python integers are [Z].

    Effects.  A numpy array handed to a method is shared with the caller, so
    a method that writes into it returns, next to its result, the contents
    the caller's array holds afterwards.  Exceptions are the [Raise] branch
    of [result]. *)

From Stdlib Require Import String ZArith QArith Qabs Qround List Bool Lia Lqa.
From Stdlib Require Import Permutation Sorted.
Import ListNotations.

(** ** Python and numpy primitives used by the two modules *)
Module Py.

Inductive exn : Type :=
| ValueError (msg : string)
| NotImplementedError (msg : string).

Inductive result (A : Type) : Type :=
| Ok (a : A)
| Raise (e : exn).
Arguments Ok {A} a.
Arguments Raise {A} e.

Definition bind {A B : Type} (r : result A) (k : A -> result B) : result B :=
  match r with
  | Ok a => k a
  | Raise e => Raise e
  end.

Notation "x <- r ;; k" := (bind r (fun x => k))
  (at level 61, r at next level, right associativity).

(** [a < b] and [a > 0] on floats. *)
Definition Qltb (a b : Q) : bool := negb (Qle_bool b a).

(** [int(x)]: truncation toward zero. *)
Definition py_int (x : Q) : Z := Z.quot (Qnum x) (Zpos (Qden x)).

(** [len(a)]. *)
Definition len {A : Type} (a : list A) : Z := Z.of_nat (length a).

(** How a slice bound [i] of [a[i:j]] is read on a sequence of length [n]:
    a negative bound counts from the end, and every bound is then cut to
    [0..n]. *)
Definition norm_index (n i : Z) : Z :=
  if (i <? 0)%Z then Z.max 0 (i + n) else Z.min i n.

Definition slice_bounds (n i j : Z) : nat * nat :=
  let lo := norm_index n i in
  let hi := Z.max lo (norm_index n j) in
  (Z.to_nat lo, Z.to_nat hi).

(** [a[i:j]] *)
Definition slice {A : Type} (a : list A) (i j : Z) : list A :=
  let '(lo, hi) := slice_bounds (len a) i j in
  firstn (hi - lo) (skipn lo a).

(** [a[i:j] = v] for a scalar [v]; the array keeps its length. *)
Definition slice_fill {A : Type} (a : list A) (i j : Z) (v : A) : list A :=
  let '(lo, hi) := slice_bounds (len a) i j in
  firstn lo a ++ repeat v (hi - lo) ++ skipn hi a.

Fixpoint mul_elementwise (xs ys : list Q) : list Q :=
  match xs, ys with
  | x :: xs', y :: ys' => (x * y) :: mul_elementwise xs' ys'
  | _, _ => []
  end.

(** [a[i:j] *= b], in place.  numpy accepts a right-hand side of the
    slice's own length, or of length one (broadcast); any other shape is a
    ValueError. *)
Definition slice_imul (a : list Q) (i j : Z) (b : list Q) : result (list Q) :=
  let '(lo, hi) := slice_bounds (len a) i j in
  let target := firstn (hi - lo) (skipn lo a) in
  if Nat.eqb (length b) (hi - lo) then
    Ok (firstn lo a ++ mul_elementwise target b ++ skipn hi a)
  else if Nat.eqb (length b) 1 then
    Ok (firstn lo a ++ map (fun x => x * hd 0 b) target ++ skipn hi a)
  else
    Raise (ValueError "operands could not be broadcast together").

(** [a[mask]] for a boolean mask of the array's length: a fresh array. *)
Fixpoint mask_select {A : Type} (a : list A) (mask : list bool) : list A :=
  match a, mask with
  | x :: a', b :: mask' =>
      if b then x :: mask_select a' mask' else mask_select a' mask'
  | _, _ => []
  end.

(** [np.linspace(start, stop, num)] with the default [endpoint=True]:
    [arange(0, num) * step + start], the last entry then overwritten by
    [stop] when [num > 1]. *)
Definition linspace (start stop : Q) (num : Z) : result (list Q) :=
  if (num <? 0)%Z then
    Raise (ValueError "Number of samples must be non-negative")
  else
    match Z.to_nat num with
    | O => Ok []
    | S O => Ok [start]
    | S m =>
        let step := (stop - start) / inject_Z (Z.of_nat m) in
        Ok (map (fun i => inject_Z (Z.of_nat i) * step + start) (seq 0 m)
              ++ [stop])
    end.

(** [np.max(a)]: a zero-size array has no maximum. *)
Definition np_max (a : list Q) : result Q :=
  match a with
  | [] => Raise (ValueError "zero-size array to reduction operation maximum which has no identity")
  | x :: xs => Ok (fold_left (fun m y => if Qltb m y then y else m) xs x)
  end.

(** [np.abs(a)] *)
Definition np_abs (a : list Q) : list Q := map Qabs a.

(** The order of Python on pairs: first components decide unless equal. *)
Definition tuple_ltb (p q : Q * Q) : bool :=
  if Qeq_bool (fst p) (fst q) then Qltb (snd p) (snd q)
  else Qltb (fst p) (fst q).

Fixpoint insert_sorted (x : Q * Q) (l : list (Q * Q)) : list (Q * Q) :=
  match l with
  | [] => [x]
  | y :: l' => if tuple_ltb y x then y :: insert_sorted x l' else x :: y :: l'
  end.

(** [sorted(l)]: a stable sort; an element goes before the later ones that
    compare equal to it. *)
Definition sorted (l : list (Q * Q)) : list (Q * Q) :=
  fold_right insert_sorted [] l.

End Py.

Import Py.

(** ** [audio_processor.py] *)
Module AudioProcessor.

Section Methods.

(** [self.sample_rate] *)
Variable sample_rate : Z.

(** One turn of the loop of [cut_segments] over the sorted timestamps; the
    state is the array [audio] and the mask [samples_to_keep]. *)
Definition cut_step (smooth_transition : Q)
    (st : list Q * list bool) (t : Q * Q) : result (list Q * list bool) :=
  let '(audio, samples_to_keep) := st in
  let '(start_time, end_time) := t in
  let start_sample := py_int (start_time * inject_Z sample_rate) in
  let end_sample := py_int (end_time * inject_Z sample_rate) in
  let start_sample := Z.max 0 start_sample in
  let end_sample := Z.min (len audio) end_sample in
  audio <-
    (if Qltb 0 smooth_transition && (0 <? start_sample)%Z then
       let fade_samples := py_int (smooth_transition * inject_Z sample_rate) in
       let fade_start := Z.max 0 (start_sample - fade_samples) in
       fade_array <- linspace 1 0 (start_sample - fade_start) ;;
       slice_imul audio fade_start start_sample
         (slice fade_array 0 (start_sample - fade_start))
     else Ok audio) ;;
  audio <-
    (if Qltb 0 smooth_transition && (end_sample <? len audio)%Z then
       let fade_samples := py_int (smooth_transition * inject_Z sample_rate) in
       let fade_end := Z.min (len audio) (end_sample + fade_samples) in
       fade_array <- linspace 0 1 (fade_end - end_sample) ;;
       slice_imul audio end_sample fade_end
         (slice fade_array 0 (fade_end - end_sample))
     else Ok audio) ;;
  Ok (audio, slice_fill samples_to_keep start_sample end_sample false).

Fixpoint cut_loop (smooth_transition : Q) (st : list Q * list bool)
    (timestamps : list (Q * Q)) : result (list Q * list bool) :=
  match timestamps with
  | [] => Ok st
  | t :: rest =>
      st' <- cut_step smooth_transition st t ;;
      cut_loop smooth_transition st' rest
  end.

(** [cut_segments(audio, timestamps_to_remove, smooth_transition)].  The
    result pairs what the caller's [audio] array holds after the call with
    the returned [processed_audio]. *)
Definition cut_segments (audio : list Q) (timestamps_to_remove : list (Q * Q))
    (smooth_transition : Q) : result (list Q * list Q) :=
  let timestamps_to_remove := sorted timestamps_to_remove in
  let samples_to_keep := repeat true (length audio) in
  st <- cut_loop smooth_transition (audio, samples_to_keep)
          timestamps_to_remove ;;
  let '(audio, samples_to_keep) := st in
  Ok (audio, mask_select audio samples_to_keep).

(** [normalize_audio(audio)] *)
Definition normalize_audio (audio : list Q) : result (list Q) :=
  max_val <- np_max (np_abs audio) ;;
  if Qltb 0 max_val then Ok (map (fun x => x / max_val) audio)
  else Ok audio.

(** [process_audio], between [load_audio] and [save_audio]: the cut, then
    the normalization when asked for. *)
Definition process_audio (audio : list Q) (timestamps_to_remove : list (Q * Q))
    (normalize : bool) (smooth_transition : Q) : result (list Q) :=
  cut <- cut_segments audio timestamps_to_remove smooth_transition ;;
  let processed_audio := snd cut in
  if normalize then normalize_audio processed_audio else Ok processed_audio.

End Methods.

End AudioProcessor.

Import AudioProcessor.

(** ** [speaker_diarization.py] *)
Module SpeakerDiarizer.

(** [pyannote.core.Segment]: a time interval in seconds. *)
Record Segment : Type := mkSegment { start : Q; end_ : Q }.

(** The [duration] property as pyannote defines it: [end - start], and 0
    for a segment it holds empty (not longer than one microsecond). *)
Definition pyannote_duration (seg : Segment) : Q :=
  if Qltb (1 # 1000000) (end_ seg - start seg) then end_ seg - start seg
  else 0.

(** A [dict] from speaker to seconds, in insertion order. *)
Definition dict : Type := list (string * Q).

(** [k in d] *)
Definition dict_mem (d : dict) (k : string) : bool :=
  existsb (fun kv => String.eqb (fst kv) k) d.

(** [d[k] = v] for a key not yet in [d]: it goes last. *)
Definition dict_new_key (d : dict) (k : string) (v : Q) : dict := d ++ [(k, v)].

(** [d[k] += v] for a key of [d]: the entry keeps its place. *)
Definition dict_add (d : dict) (k : string) (v : Q) : dict :=
  map (fun kv => if String.eqb (fst kv) k then (fst kv, snd kv + v) else kv) d.

(** [min(items, key=lambda x: x[1])]: the first of the minimal items. *)
Definition min_by_value (items : list (string * Q)) : result (string * Q) :=
  match items with
  | [] => Raise (ValueError "min() arg is an empty sequence")
  | x :: xs =>
      Ok (fold_left (fun best y => if Qltb (snd y) (snd best) then y else best)
            xs x)
  end.

Section Methods.

(** [segment.duration]; the class comes from pyannote, so the methods take
    it as given. *)
Variable duration : Segment -> Q.

(** [get_speaker_segments(segments, speaker_id)] *)
Definition get_speaker_segments (segments : list (Segment * string))
    (speaker_id : string) : list Segment :=
  map fst (filter (fun p => String.eqb (snd p) speaker_id) segments).

(** The body of the accumulation loop of the ["duration"] method. *)
Definition add_segment (speaker_duration : dict) (p : Segment * string) : dict :=
  let '(segment, speaker) := p in
  let speaker_duration :=
    if negb (dict_mem speaker_duration speaker)
    then dict_new_key speaker_duration speaker 0
    else speaker_duration in
  dict_add speaker_duration speaker (duration segment).

(** [identify_interviewer(segments, method)] *)
Definition identify_interviewer (segments : list (Segment * string))
    (method : string) : result string :=
  match segments with
  | [] => Ok ""%string
  | first_entry :: _ =>
      let speakers := nodup string_dec (map snd segments) in
      if (length speakers <=? 1)%nat then Ok (hd ""%string speakers)
      else if String.eqb method "first" then Ok (snd first_entry)
      else if String.eqb method "duration" then
        let speaker_duration := fold_left add_segment segments [] in
        best <- min_by_value speaker_duration ;;
        Ok (fst best)
      else if String.eqb method "manual" then
        Raise (NotImplementedError "Manual selection not implemented")
      else Raise (ValueError ("Unknown method: " ++ method))
  end.

(** [get_speaker_timestamps], from the point where [diarize] has returned
    [segments]. *)
Definition get_speaker_timestamps (segments : list (Segment * string))
    (target_speaker : option string) (detection_method : string)
    : result (list (Q * Q)) :=
  interviewer_id <-
    match target_speaker with
    | None => identify_interviewer segments detection_method
    | Some target => Ok target
    end ;;
  let interviewer_segments := get_speaker_segments segments interviewer_id in
  Ok (map (fun seg => (start seg, end_ seg)) interviewer_segments).

End Methods.

End SpeakerDiarizer.

Import SpeakerDiarizer.

(** ** [main.py] and [downloader.py]: titles and file names *)
Module Titles.

(** A Python [str] is a list of code points. *)
Definition str : Type := list N.

Definition space : N := 32.
Definition dash : N := 45.
Definition underscore : N := 95.

Section Unicode.

(** [c.isalnum()] and [c.isspace()] of a code point, as the Unicode tables
    of the interpreter have them. *)
Variable isalnum : N -> bool.
Variable isspace : N -> bool.

(** ["".join(c for c in title if c.isalnum() or c in (' ', '-', '_'))] *)
Definition keep_safe (title : str) : str :=
  filter (fun c => isalnum c
                   || (N.eqb c space || N.eqb c dash || N.eqb c underscore))
         title.

(** [s.lstrip()], [s.rstrip()] and [s.strip()] *)
Fixpoint lstrip (s : str) : str :=
  match s with
  | [] => []
  | c :: s' => if isspace c then lstrip s' else s
  end.

Definition rstrip (s : str) : str := rev (lstrip (rev s)).

Definition strip (s : str) : str := rstrip (lstrip s).

(** [s.replace(' ', '_')] *)
Definition replace_space (s : str) : str :=
  map (fun c => if N.eqb c space then underscore else c) s.

(** The two lines that turn a title into a file name, in
    [download_audio] and, twice, in [main]. *)
Definition safe_title (title : str) : str :=
  replace_space (strip (keep_safe title)).

End Unicode.

(** The description field of [get_video_info]:
    [info.get('description', '')[:500] if info.get('description') else ""],
    the key being absent or None ([None]) or a string. *)
Definition description_field (description : option str) : str :=
  match description with
  | Some (c :: d) => slice (c :: d) 0 500
  | _ => []
  end.

(** The two predicates on the ASCII code points. *)
Definition ascii_isalnum (c : N) : bool :=
  ((48 <=? c) && (c <=? 57) || (65 <=? c) && (c <=? 90)
   || (97 <=? c) && (c <=? 122))%N.

Definition ascii_isspace (c : N) : bool :=
  ((9 <=? c) && (c <=? 13) || (28 <=? c) && (c <=? 32))%N.

End Titles.

Import Titles.

(** ** The progress line of [diarize] *)
Module Progress.

(** The counters of [show_progress]. *)
Record counters : Type := mkCounters { elapsed : Z; dots : Z }.

(** [s * n] for a string and an integer: nothing when [n <= 0]. *)
Definition str_times (s : string) (n : Z) : string :=
  String.concat "" (repeat s (Z.to_nat n)).

(** One turn of the loop, after the sleep: the counters move on. *)
Definition tick (c : counters) : counters :=
  {| elapsed := elapsed c + 5; dots := (dots c + 1) mod 4 |}.

(** ["." * dots + " " * (3 - dots)] *)
Definition dot_str (c : counters) : string :=
  (str_times "." (dots c) ++ str_times " " (3 - dots c))%string.

(** [min(100, int((elapsed / est_time) * 100))] *)
Definition progress_pct (c : counters) (est_time : Q) : Z :=
  Z.min 100 (py_int (inject_Z (elapsed c) / est_time * 100)).

(** The counters after [n] turns, from [elapsed = 0] and [dots = 0]. *)
Fixpoint after (n : nat) : counters :=
  match n with
  | O => mkCounters 0 0
  | S n' => tick (after n')
  end.

End Progress.

Import Progress.

(** ** Vocabulary of the statements *)

(** A gain curve read by index. *)
Definition gain (curve : list Q) (i : nat) : Q := nth i curve 0.

Definition non_increasing (curve : list Q) : Prop :=
  forall i j, (i <= j < length curve)%nat -> gain curve j <= gain curve i.

Definition non_decreasing (curve : list Q) : Prop :=
  forall i j, (i <= j < length curve)%nat -> gain curve i <= gain curve j.

(** The peak of a buffer is [m]: [np.max(np.abs(audio))] returns it. *)
Definition peak_is (audio : list Q) (m : Q) : Prop :=
  np_max (np_abs audio) = Ok m.

Definition ones (n : nat) : list Q := repeat 1 n.

(** [int(t * sample_rate)]: the sample index of a time in seconds. *)
Definition to_sample (sample_rate : Z) (t : Q) : Z :=
  py_int (t * inject_Z sample_rate).

(** The sample range [cut_segments] computes for a time range: the start is
    raised to 0, the end is lowered to the buffer length [L]. *)
Definition code_range (sample_rate L : Z) (t : Q * Q) : Z * Z :=
  (Z.max 0 (to_sample sample_rate (fst t)),
   Z.min L (to_sample sample_rate (snd t))).

(** Both ends cut to [0..L]. *)
Definition clamp (L i : Z) : Z := Z.max 0 (Z.min L i).

Definition clamped_range (sample_rate L : Z) (t : Q * Q) : Z * Z :=
  (clamp L (to_sample sample_rate (fst t)),
   clamp L (to_sample sample_rate (snd t))).

(** Sample [i] lies in one of the half-open ranges. *)
Definition covers (ranges : list (Z * Z)) (i : nat) : bool :=
  existsb (fun r => (fst r <=? Z.of_nat i)%Z && (Z.of_nat i <? snd r)%Z) ranges.

(** How many of the [L] sample indices the union of the ranges covers. *)
Definition covered (L : nat) (ranges : list (Z * Z)) : nat :=
  length (filter (covers ranges) (seq 0 L)).

(** The mask over [L] samples that keeps what the ranges do not cover. *)
Definition mask_of (L : nat) (ranges : list (Z * Z)) : list bool :=
  map (fun i => negb (covers ranges i)) (seq 0 L).

(** A time range whose start does not convert past the end of the buffer
    and whose end does not convert below 0. *)
Definition in_bounds (sample_rate L : Z) (t : Q * Q) : Prop :=
  (to_sample sample_rate (fst t) <= L)%Z /\
  (0 <= to_sample sample_rate (snd t))%Z.




(** The speaker labels of a segment list, in order. *)
Definition labels (segments : list (Segment * string)) : list string :=
  map snd segments.

Definition two_speakers (segments : list (Segment * string)) : Prop :=
  exists a b, a <> b /\ In a (labels segments) /\ In b (labels segments).

(** Seconds spoken by [speaker]: the durations of the speaker's segments,
    added in order from 0. *)
Definition total_duration (duration : Segment -> Q)
    (segments : list (Segment * string)) (speaker : string) : Q :=
  fold_left Qplus (map duration (get_speaker_segments segments speaker)) 0.

(** The [(start, end)] pairs of the segments labelled [speaker], in the
    order of the list. *)
Definition ranges_of (segments : list (Segment * string)) (speaker : string)
    : list (Q * Q) :=
  map (fun p => (start (fst p), end_ (fst p)))
      (filter (fun p => String.eqb (snd p) speaker) segments).

(** The distinct labels of a list, each at its first appearance. *)
Fixpoint first_seen (l : list string) : list string :=
  match l with
  | [] => []
  | s :: l' => s :: filter (fun x => negb (String.eqb x s)) (first_seen l')
  end.

(** Scenario 3 of the specification, and a list in which A and B tie. *)
Definition scenario3 : list (Segment * string) :=
  [(mkSegment 0 10, "A"%string); (mkSegment 10 12, "B"%string);
   (mkSegment 12 20, "A"%string)].

Definition tied : list (Segment * string) :=
  [(mkSegment 0 4, "C"%string); (mkSegment 4 6, "A"%string);
   (mkSegment 6 8, "B"%string)].

Definition known_method (method : string) : Prop :=
  method = "duration"%string \/ method = "first"%string
  \/ method = "manual"%string.

(** What the accumulation loop of the ["duration"] method maintains after
    the segments [done]: the keys are the speakers in order of first
    appearance, and every value is the speaker's total so far. *)
Definition dict_tracks (duration : Segment -> Q) (d : dict)
    (done : list (Segment * string)) : Prop :=
  map fst d = first_seen (labels done) /\
  forall k v, In (k, v) d -> v = total_duration duration done k.

(** [y] is no louder than [x]. *)
Definition no_louder (y x : Q) : Prop := Qabs y <= Qabs x.

(** ** Facts about the primitives *)
Module PyFacts.

Lemma Qltb_lt (a b : Q) : Qltb a b = true <-> a < b.
Proof.
  unfold Qltb. rewrite negb_true_iff, <- not_true_iff_false, Qle_bool_iff.
  split; [apply Qnot_le_lt | apply Qlt_not_le].
Qed.

Lemma Qltb_ge (a b : Q) : Qltb a b = false <-> b <= a.
Proof.
  unfold Qltb. rewrite negb_false_iff. apply Qle_bool_iff.
Qed.

Lemma Qltb_nonpos (x : Q) : x <= 0 -> Qltb 0 x = false.
Proof. intros H. now apply Qltb_ge. Qed.

(** *** Truncation *)

Lemma py_int_floor (x : Q) : (0 <= Qnum x)%Z -> py_int x = Qfloor x.
Proof.
  destruct x as [n d]. cbn. intros H. apply Z.quot_div_nonneg; lia.
Qed.

Lemma py_int_ceiling (x : Q) : (Qnum x <= 0)%Z -> py_int x = Qceiling x.
Proof.
  destruct x as [n d]. unfold py_int, Qceiling, Qfloor. cbn. intros H.
  rewrite <- (Z.opp_involutive n) at 1.
  rewrite Z.quot_opp_l by lia. f_equal. apply Z.quot_div_nonneg; lia.
Qed.

Lemma py_int_nonneg (x : Q) : 0 <= x -> (0 <= py_int x)%Z.
Proof.
  destruct x as [n d]. unfold Qle, py_int. cbn. intros H.
  apply Z.quot_pos; lia.
Qed.

Lemma py_int_nonpos (x : Q) : x <= 0 -> (py_int x <= 0)%Z.
Proof.
  destruct x as [n d]. unfold Qle, py_int. cbn. intros H.
  rewrite <- (Z.opp_involutive n), Z.quot_opp_l by lia.
  assert (0 <= - n ÷ Z.pos d)%Z by (apply Z.quot_pos; lia). lia.
Qed.

Lemma py_int_mono (x y : Q) : x <= y -> (py_int x <= py_int y)%Z.
Proof.
  intros Hxy.
  destruct (Z.le_gt_cases 0 (Qnum x)) as [Hx|Hx].
  - assert (Hy : (0 <= Qnum y)%Z).
    { unfold Qle in Hxy. destruct x as [nx dx], y as [ny dy]. cbn in *. nia. }
    rewrite !py_int_floor by assumption. now apply Qfloor_resp_le.
  - destruct (Z.le_gt_cases (Qnum y) 0) as [Hy|Hy].
    + rewrite !py_int_ceiling by lia. now apply Qceiling_resp_le.
    + assert (py_int x <= 0)%Z.
      { apply py_int_nonpos. unfold Qle. cbn. lia. }
      assert (0 <= py_int y)%Z.
      { apply py_int_nonneg. unfold Qle. cbn. lia. }
      lia.
Qed.


Lemma to_sample_nonneg (sample_rate : Z) (x : Q) :
  (0 <= sample_rate)%Z -> 0 <= x -> (0 <= to_sample sample_rate x)%Z.
Proof.
  intros Hsr Hx. apply py_int_nonneg. apply Qmult_le_0_compat; [exact Hx|].
  replace 0 with (inject_Z 0) by reflexivity. now rewrite <- Zle_Qle.
Qed.

(** *** Slices *)

Lemma norm_index_range (n i : Z) :
  (0 <= n)%Z -> (0 <= norm_index n i <= n)%Z.
Proof.
  intros Hn. unfold norm_index. destruct (Z.ltb_spec i 0); lia.
Qed.

Lemma slice_bounds_range {A : Type} (a : list A) (i j : Z) (lo hi : nat) :
  slice_bounds (len a) i j = (lo, hi) -> (lo <= hi <= length a)%nat.
Proof.
  unfold slice_bounds, len. intros [= <- <-].
  pose proof (norm_index_range (Z.of_nat (length a)) i ltac:(lia)).
  pose proof (norm_index_range (Z.of_nat (length a)) j ltac:(lia)).
  lia.
Qed.

(** The bounds of a slice whose ends are not negative. *)
Lemma slice_bounds_nonneg (n i j : Z) :
  (0 <= i)%Z -> (0 <= j)%Z -> (0 <= n)%Z ->
  slice_bounds n i j =
    (Z.to_nat (Z.min i n), Z.to_nat (Z.max (Z.min i n) (Z.min j n))).
Proof.
  intros Hi Hj Hn. unfold slice_bounds, norm_index.
  destruct (Z.ltb_spec i 0); [lia|]. destruct (Z.ltb_spec j 0); [lia|].
  reflexivity.
Qed.

Lemma patch_length {A : Type} (a mid : list A) (lo hi : nat) :
  (lo <= hi <= length a)%nat -> length mid = (hi - lo)%nat ->
  length (firstn lo a ++ mid ++ skipn hi a) = length a.
Proof.
  intros H Hmid. rewrite !length_app, length_firstn, length_skipn, Hmid. lia.
Qed.

Lemma patch_nth {A : Type} (a : list A) (v d : A) (lo hi i : nat) :
  (lo <= hi <= length a)%nat ->
  nth i (firstn lo a ++ repeat v (hi - lo) ++ skipn hi a) d =
  if (lo <=? i)%nat && (i <? hi)%nat then v else nth i a d.
Proof.
  intros H.
  assert (Hl : length (firstn lo a) = lo) by (rewrite length_firstn; lia).
  destruct (Nat.leb_spec lo i) as [Hlo|Hlo]; cbn [andb].
  - rewrite app_nth2 by lia. rewrite Hl.
    destruct (Nat.ltb_spec i hi) as [Hhi|Hhi].
    + rewrite app_nth1 by (rewrite repeat_length; lia).
      apply nth_repeat_lt. lia.
    + rewrite app_nth2 by (rewrite repeat_length; lia).
      rewrite repeat_length, nth_skipn. f_equal. lia.
  - rewrite app_nth1 by lia. rewrite nth_firstn.
    destruct (Nat.ltb_spec i lo); [reflexivity|lia].
Qed.

Lemma slice_fill_length {A : Type} (a : list A) (i j : Z) (v : A) :
  length (slice_fill a i j v) = length a.
Proof.
  unfold slice_fill. destruct (slice_bounds (len a) i j) as [lo hi] eqn:E.
  apply slice_bounds_range in E. apply patch_length; [exact E|].
  apply repeat_length.
Qed.

(** Writing [v] over [a[s:e]] for bounds that are not negative: the
    entries from [s] up to [e] change, within the array. *)
Lemma slice_fill_nth {A : Type} (a : list A) (s e : Z) (v d : A) (i : nat) :
  (0 <= s)%Z -> (0 <= e)%Z -> (i < length a)%nat ->
  nth i (slice_fill a s e v) d =
  if (s <=? Z.of_nat i)%Z && (Z.of_nat i <? e)%Z then v else nth i a d.
Proof.
  intros Hs He Hi. unfold slice_fill.
  pose proof (slice_bounds_range a s e) as Hr.
  rewrite slice_bounds_nonneg in * by (unfold len; lia).
  specialize (Hr _ _ eq_refl). rewrite patch_nth by exact Hr.
  unfold len in *.
  destruct (Z.leb_spec s (Z.of_nat i)), (Z.ltb_spec (Z.of_nat i) e),
    (Nat.leb_spec (Z.to_nat (Z.min s (Z.of_nat (length a)))) i),
    (Nat.ltb_spec i (Z.to_nat (Z.max (Z.min s (Z.of_nat (length a)))
                                (Z.min e (Z.of_nat (length a))))));
    cbn [andb]; try reflexivity; lia.
Qed.

Lemma mul_elementwise_length (xs ys : list Q) :
  length (mul_elementwise xs ys) = Nat.min (length xs) (length ys).
Proof.
  revert ys. induction xs as [|x xs IH]; intros [|y ys]; cbn; auto.
Qed.

Lemma slice_imul_length (a b a' : list Q) (i j : Z) :
  slice_imul a i j b = Ok a' -> length a' = length a.
Proof.
  unfold slice_imul. destruct (slice_bounds (len a) i j) as [lo hi] eqn:E.
  apply slice_bounds_range in E.
  assert (Ht : length (firstn (hi - lo) (skipn lo a)) = (hi - lo)%nat).
  { rewrite length_firstn, length_skipn. lia. }
  destruct (Nat.eqb_spec (length b) (hi - lo)) as [Hb|Hb].
  - intros [= <-]. apply patch_length; [exact E|].
    rewrite mul_elementwise_length, Ht, Hb. lia.
  - destruct (Nat.eqb (length b) 1); [|discriminate].
    intros [= <-]. apply patch_length; [exact E|].
    now rewrite length_map.
Qed.

(** An in-place product goes through when the right-hand side has the
    length of a slice that lies within the array. *)
Lemma slice_imul_ok (a b : list Q) (s e : Z) :
  (0 <= s <= e)%Z -> (e <= len a)%Z -> length b = Z.to_nat (e - s) ->
  exists a', slice_imul a s e b = Ok a'.
Proof.
  intros Hs He Hb. unfold slice_imul.
  rewrite slice_bounds_nonneg by (unfold len in *; lia).
  rewrite !Z.min_l, Z.max_r by lia.
  replace (Z.to_nat e - Z.to_nat s)%nat with (Z.to_nat (e - s)) by lia.
  rewrite Hb, Nat.eqb_refl. eexists. reflexivity.
Qed.

Lemma linspace_ok (start stop : Q) (num : Z) :
  (0 <= num)%Z ->
  exists curve, linspace start stop num = Ok curve /\
                length curve = Z.to_nat num.
Proof.
  intros Hnum. unfold linspace. destruct (Z.ltb_spec num 0); [lia|].
  destruct (Z.to_nat num) as [|[|m]]; eexists; (split; [reflexivity|]).
  - reflexivity.
  - reflexivity.
  - rewrite length_app, length_map, length_seq. cbn. lia.
Qed.

(** [curve[:k]] is the whole curve when it has [k] entries. *)
Lemma slice_whole {A : Type} (a : list A) (k : Z) :
  length a = Z.to_nat k -> slice a 0 k = a.
Proof.
  intros Hk. unfold slice, slice_bounds, len.
  assert (E0 : norm_index (Z.of_nat (length a)) 0 = 0%Z).
  { unfold norm_index. cbn. lia. }
  rewrite E0. cbn [Z.to_nat skipn]. rewrite Nat.sub_0_r.
  apply firstn_all2. unfold norm_index.
  destruct (Z.ltb_spec k 0); lia.
Qed.

End PyFacts.

Import PyFacts.

(** ** The fade curves *)
Module FadeCurve.

Lemma linspace_long (start stop : Q) (N : Z) :
  (1 < N)%Z ->
  exists m, Z.to_nat N = S (S m) /\
    linspace start stop N =
      Ok (map (fun i => inject_Z (Z.of_nat i)
                        * ((stop - start) / inject_Z (Z.of_nat (S m))) + start)
              (seq 0 (S m)) ++ [stop]).
Proof.
  intros HN. unfold linspace.
  destruct (Z.ltb_spec N 0) as [Hneg|_]; [lia|].
  destruct (Z.to_nat N) as [|[|m]] eqn:E; try lia.
  exists m. split; reflexivity.
Qed.

Lemma inject_nat_pos (n : nat) : 0 < inject_Z (Z.of_nat (S n)).
Proof.
  replace 0 with (inject_Z 0) by reflexivity.
  rewrite <- Zlt_Qlt. lia.
Qed.

Lemma inject_nat_neq (n : nat) : ~ inject_Z (Z.of_nat (S n)) == 0.
Proof. pose proof (inject_nat_pos n). lra. Qed.

Lemma inject_nat_le (i j : nat) :
  (i <= j)%nat -> inject_Z (Z.of_nat i) <= inject_Z (Z.of_nat j).
Proof. intros H. rewrite <- Zle_Qle. lia. Qed.

(** Closed form of the entries of a curve with more than one sample. *)
Lemma linspace_gain (start stop : Q) (m i : nat) :
  (i <= S m)%nat ->
  gain (map (fun i => inject_Z (Z.of_nat i)
                      * ((stop - start) / inject_Z (Z.of_nat (S m))) + start)
            (seq 0 (S m)) ++ [stop]) i
  == start + (stop - start) * (inject_Z (Z.of_nat i) / inject_Z (Z.of_nat (S m))).
Proof.
  intros Hi. unfold gain.
  pose proof (inject_nat_pos m) as Hpos.
  destruct (Nat.eq_dec i (S m)) as [->|Hne].
  - rewrite app_nth2; rewrite length_map, length_seq; [|lia].
    rewrite Nat.sub_diag. cbn [nth]. field. apply inject_nat_neq.
  - rewrite app_nth1 by (rewrite length_map, length_seq; lia).
    set (f := fun i : nat => inject_Z (Z.of_nat i)
             * ((stop - start) / inject_Z (Z.of_nat (S m))) + start).
    rewrite (nth_indep _ 0 (f O)) by (rewrite length_map, length_seq; lia).
    rewrite (map_nth f), seq_nth by lia. unfold f. cbn [Nat.add]. field. apply inject_nat_neq.
Qed.

Lemma ratio_le (m i j : nat) :
  (i <= j)%nat ->
  inject_Z (Z.of_nat i) / inject_Z (Z.of_nat (S m))
  <= inject_Z (Z.of_nat j) / inject_Z (Z.of_nat (S m)).
Proof.
  intros H. unfold Qdiv. apply Qmult_le_compat_r.
  - now apply inject_nat_le.
  - apply Qlt_le_weak, Qinv_lt_0_compat, inject_nat_pos.
Qed.

(** The two ramps.  For every span length N > 1 the fade-out curve
    [np.linspace(1.0, 0.0, N)] has N gains, starts at 1, ends at 0 and never
    increases, and the fade-in curve [np.linspace(0.0, 1.0, N)] has N gains,
    starts at 0, ends at 1 and never decreases, both being linear in the
    index with a step of 1/(N-1); for N = 0 both curves are
    empty, and multiplying the empty span by the empty curve leaves the
    buffer as it was. *)
Lemma linspace_ramps (N : Z) (HN : (1 < N)%Z) :
  (exists fade_out fade_in,
     linspace 1 0 N = Ok fade_out /\ linspace 0 1 N = Ok fade_in /\
     length fade_out = Z.to_nat N /\ length fade_in = Z.to_nat N /\
     gain fade_out 0 == 1 /\ gain fade_out (Z.to_nat N - 1) == 0 /\
     non_increasing fade_out /\
     gain fade_in 0 == 0 /\ gain fade_in (Z.to_nat N - 1) == 1 /\
     non_decreasing fade_in /\
     (forall i, (i < Z.to_nat N)%nat ->
        gain fade_out i == 1 - inject_Z (Z.of_nat i) / inject_Z (N - 1) /\
        gain fade_in i == inject_Z (Z.of_nat i) / inject_Z (N - 1))) /\
  linspace 1 0 0 = Ok [] /\ linspace 0 1 0 = Ok [] /\
  (forall (audio : list Q) (k : Z),
     (0 <= k <= len audio)%Z -> slice_imul audio k k [] = Ok audio).
Proof.
  split; [|split; [reflexivity|split; [reflexivity|]]].
  - destruct (linspace_long 1 0 N HN) as (m & Em & Eout).
    destruct (linspace_long 0 1 N HN) as (m' & Em' & Ein).
    assert (m' = m) by congruence. subst m'.
    eexists. eexists.
    split; [exact Eout|]. split; [exact Ein|].
    pose proof (inject_nat_pos m) as Hpos.
    assert (Hlen : forall a b, length (map (fun i => inject_Z (Z.of_nat i)
                  * ((b - a) / inject_Z (Z.of_nat (S m))) + a)
                  (seq 0 (S m)) ++ [b]) = S (S m)).
    { intros a b. rewrite length_app, length_map, length_seq. cbn. lia. }
    rewrite !Hlen, Em.
    replace (S (S m) - 1)%nat with (S m) by lia.
    assert (Hgain0 : forall a b, gain (map (fun i => inject_Z (Z.of_nat i)
                  * ((b - a) / inject_Z (Z.of_nat (S m))) + a)
                  (seq 0 (S m)) ++ [b]) 0 == a).
    { intros a b. rewrite linspace_gain by lia.
      change (inject_Z (Z.of_nat 0)) with 0. field. apply inject_nat_neq. }
    assert (HgainN : forall a b, gain (map (fun i => inject_Z (Z.of_nat i)
                  * ((b - a) / inject_Z (Z.of_nat (S m))) + a)
                  (seq 0 (S m)) ++ [b]) (S m) == b).
    { intros a b. rewrite linspace_gain by lia. field. apply inject_nat_neq. }
    split; [reflexivity|]. split; [reflexivity|].
    split; [apply Hgain0|]. split; [apply HgainN|].
    split.
    { intros i j Hij. rewrite Hlen in Hij.
      rewrite !linspace_gain by lia.
      pose proof (ratio_le m i j ltac:(lia)). lra. }
    split; [apply Hgain0|]. split; [apply HgainN|].
    split.
    { intros i j Hij. rewrite Hlen in Hij.
      rewrite !linspace_gain by lia.
      pose proof (ratio_le m i j ltac:(lia)). lra. }
    intros i Hi.
    replace (N - 1)%Z with (Z.of_nat (S m)) by lia.
    rewrite !linspace_gain by lia.
    split; field; apply inject_nat_neq.
  - intros audio k Hk. unfold slice_imul, slice_bounds, norm_index.
    destruct (Z.ltb_spec k 0) as [?|_]; [lia|].
    rewrite Z.min_l by lia. rewrite Z.max_id, Nat.sub_diag.
    cbn [length Nat.eqb firstn mul_elementwise app].
    now rewrite firstn_skipn.
Qed.

End FadeCurve.

(** ** The normalizer *)
Module Normalizer.

(** The running maximum of [np.max] is an entry and bounds every entry. *)
Lemma running_max_spec (xs : list Q) (x : Q) :
  let m := fold_left (fun m y => if Qltb m y then y else m) xs x in
  In m (x :: xs) /\ forall y, In y (x :: xs) -> y <= m.
Proof.
  revert x. induction xs as [|z xs IH]; intros x; cbn [fold_left].
  - split; [now left|]. intros y [<-|[]]. apply Qle_refl.
  - destruct (Qltb x z) eqn:E.
    + destruct (IH z) as [Hin Hmax]. split.
      * right. exact Hin.
      * intros y [<-|Hy]; [|now apply Hmax].
        apply Qltb_lt in E. apply Qle_trans with z; [lra|].
        apply Hmax. now left.
    + destruct (IH x) as [Hin Hmax]. split.
      * destruct Hin as [<-|Hin]; [now left|right; now right].
      * intros y [<-|[<-|Hy]].
        -- apply Hmax. now left.
        -- apply Qltb_ge in E. apply Qle_trans with x; [lra|].
           apply Hmax. now left.
        -- apply Hmax. now right.
Qed.

Lemma np_max_spec (a : list Q) (m : Q) :
  np_max a = Ok m -> In m a /\ forall y, In y a -> y <= m.
Proof.
  destruct a as [|x xs]; cbn [np_max]; [discriminate|].
  intros [= <-]. apply running_max_spec.
Qed.

Lemma np_max_nonempty (a : list Q) :
  a <> [] -> exists m, np_max a = Ok m.
Proof. destruct a; [congruence|]. intros _. eexists. reflexivity. Qed.

Lemma Qabs_div_pos (x m : Q) : 0 < m -> Qabs (x / m) == Qabs x / m.
Proof.
  intros Hm. unfold Qdiv. rewrite Qabs_Qmult.
  rewrite (Qabs_pos (/ m)); [reflexivity|].
  apply Qlt_le_weak, Qinv_lt_0_compat, Hm.
Qed.

(** C6. For every buffer whose peak absolute amplitude [m] is not zero,
    the normalizer returns a buffer of the same length whose every sample is
    the input sample divided by [m], and the peak absolute amplitude of that
    output is 1. *)
Theorem normalize_audio_unit_peak (audio : list Q) (m : Q) :
  peak_is audio m -> ~ m == 0 ->
  exists out,
    normalize_audio audio = Ok out /\
    length out = length audio /\
    (forall i, (i < length audio)%nat -> nth i out 0 == nth i audio 0 / m) /\
    exists m', peak_is out m' /\ m' == 1.
Proof.
  unfold peak_is. intros Hpeak Hnz.
  destruct (np_max_spec _ _ Hpeak) as [Hin Hmax].
  unfold np_abs in Hin, Hmax. apply in_map_iff in Hin.
  destruct Hin as (x0 & Hx0 & Hx0in).
  assert (Hpos : 0 < m).
  { pose proof (Qabs_nonneg x0) as H0. rewrite Hx0 in H0.
    destruct (Qlt_le_dec 0 m) as [H|H]; [exact H|].
    exfalso. apply Hnz. lra. }
  exists (map (fun x => x / m) audio).
  split.
  { unfold normalize_audio. rewrite Hpeak. cbn [bind].
    apply Qltb_lt in Hpos. now rewrite Hpos. }
  split; [apply length_map|].
  split.
  { intros i Hi.
    rewrite (nth_indep _ 0 ((fun x => x / m) 0))
      by (rewrite length_map; exact Hi).
    rewrite (map_nth (fun x => x / m)). reflexivity. }
  destruct (np_max_nonempty (np_abs (map (fun x => x / m) audio)))
    as [m' Hm'].
  { destruct audio; [contradiction|discriminate]. }
  exists m'. split; [exact Hm'|].
  destruct (np_max_spec _ _ Hm') as [Hin' Hmax'].
  unfold np_abs in Hin', Hmax'.
  apply Qle_antisym.
  - apply in_map_iff in Hin'. destruct Hin' as (y & <- & Hy).
    apply in_map_iff in Hy. destruct Hy as (x & <- & Hx).
    rewrite Qabs_div_pos by exact Hpos.
    apply Qle_shift_div_r; [exact Hpos|]. rewrite Qmult_1_l.
    apply Hmax. now apply in_map.
  - assert (H1 : Qabs (x0 / m) <= m').
    { apply Hmax'. apply in_map. apply (in_map (fun x => x / m)). exact Hx0in. }
    rewrite Qabs_div_pos, Hx0 in H1 by exact Hpos.
    assert (E : m / m == 1) by (field; exact Hnz).
    rewrite E in H1. exact H1.
Qed.

Lemma normalize_audio_unit_peak_witness :
  peak_is [1 # 2; -2 # 1] 2 /\ ~ 2 == 0 /\
  exists out, normalize_audio [1 # 2; -2 # 1] = Ok out /\
    length out = 2%nat /\ exists m', peak_is out m' /\ m' == 1.
Proof.
  split; [reflexivity|]. split; [discriminate|].
  destruct (normalize_audio_unit_peak [1 # 2; -2 # 1] 2)
    as (out & H1 & H2 & _ & H3).
  - reflexivity.
  - discriminate.
  - exists out. split; [exact H1|]. split; [exact H2|exact H3].
Defined.

(** X11. A silent buffer that is not empty is returned as it is: the peak
    is 0 and no division takes place. *)
Lemma normalize_audio_silent (audio : list Q) :
  audio <> [] -> (forall x, In x audio -> x == 0) ->
  normalize_audio audio = Ok audio.
Proof.
  intros Hne Hzero.
  destruct (np_max_nonempty (np_abs audio)) as [m Hm].
  { destruct audio; [contradiction|discriminate]. }
  unfold normalize_audio. rewrite Hm. cbn [bind].
  destruct (np_max_spec _ _ Hm) as [Hin _].
  unfold np_abs in Hin. apply in_map_iff in Hin.
  destruct Hin as (x & <- & Hx).
  assert (E : Qltb 0 (Qabs x) = false).
  { apply Qltb_ge. rewrite (Hzero x Hx). apply Qle_refl. }
  now rewrite E.
Qed.

(** C7. On the zero-length buffer the normalizer does not return its input:
    [np.max] raises ValueError before the peak is compared with 0.  The
    pipeline reaches this call when the removed ranges cover the whole
    buffer, since the cut then returns the zero-length buffer. *)
Theorem normalize_audio_empty_raises :
  normalize_audio [] =
    Raise (ValueError "zero-size array to reduction operation maximum which has no identity") /\
  cut_segments 10 (ones 100) [(0, 10)] 0 = Ok (ones 100, []) /\
  process_audio 10 (ones 100) [(0, 10)] true 0 =
    Raise (ValueError "zero-size array to reduction operation maximum which has no identity").
Proof. split; [|split]; vm_compute; reflexivity. Qed.

End Normalizer.

(** ** The interviewer selector *)
Module InterviewerSelector.

Lemma first_seen_In (l : list string) (x : string) :
  In x (first_seen l) <-> In x l.
Proof.
  induction l as [|a l IH]; cbn [first_seen]; [tauto|].
  cbn [In]. rewrite filter_In, IH, negb_true_iff, String.eqb_neq.
  destruct (string_dec a x); intuition congruence.
Qed.

Lemma first_seen_NoDup (l : list string) : NoDup (first_seen l).
Proof.
  induction l as [|a l IH]; cbn [first_seen]; constructor.
  - rewrite filter_In, negb_true_iff, String.eqb_neq. tauto.
  - now apply NoDup_filter.
Qed.

Lemma first_seen_snoc (l : list string) (s : string) :
  first_seen (l ++ [s]) =
  first_seen l ++ (if in_dec string_dec s l then [] else [s]).
Proof.
  induction l as [|a l IH]; [reflexivity|].
  cbn [app first_seen]. rewrite IH, filter_app, app_comm_cons. f_equal.
  destruct (in_dec string_dec s l) as [Hl|Hl];
    destruct (in_dec string_dec s (a :: l)) as [Hal|Hal]; cbn [filter].
  - reflexivity.
  - exfalso. apply Hal. now right.
  - destruct Hal as [->|]; [|contradiction].
    now rewrite String.eqb_refl.
  - assert (Ha : s <> a) by (intros ->; apply Hal; now left).
    apply String.eqb_neq in Ha. now rewrite Ha.
Qed.

Lemma first_seen_snoc_old (l : list string) (s : string) :
  In s l -> first_seen (l ++ [s]) = first_seen l.
Proof.
  intros H. rewrite first_seen_snoc.
  destruct (in_dec string_dec s l); [apply app_nil_r|contradiction].
Qed.

Lemma first_seen_snoc_new (l : list string) (s : string) :
  ~ In s l -> first_seen (l ++ [s]) = first_seen l ++ [s].
Proof.
  intros H. rewrite first_seen_snoc.
  destruct (in_dec string_dec s l); [contradiction|reflexivity].
Qed.

(** Up to the first appearance of [s], the order of first appearances is
    that of the prefix. *)
Lemma first_seen_prefix (pre post : list string) (s : string) :
  ~ In s pre ->
  exists rest, first_seen (pre ++ s :: post) = first_seen pre ++ s :: rest.
Proof.
  induction pre as [|a pre IH]; intros Hnin.
  - eexists. reflexivity.
  - destruct IH as [rest IH]; [intros H; apply Hnin; now right|].
    cbn [app first_seen]. rewrite IH, filter_app. cbn [filter].
    assert (Ha : s <> a) by (intros ->; apply Hnin; now left).
    apply String.eqb_neq in Ha. rewrite Ha. cbn [negb].
    eexists. rewrite app_comm_cons. reflexivity.
Qed.

Lemma in_split_first (l : list string) (x : string) :
  In x l -> exists pre post, l = pre ++ x :: post /\ ~ In x pre.
Proof.
  induction l as [|a l IH]; [intros []|]. intros Hin.
  destruct (string_dec a x) as [->|Hne].
  - exists [], l. split; [reflexivity|intros []].
  - destruct Hin as [?|Hin]; [contradiction|].
    destruct (IH Hin) as (pre & post & -> & Hpre).
    exists (a :: pre), post. split; [reflexivity|].
    intros [?|?]; [contradiction|contradiction].
Qed.

Lemma NoDup_split_unique (a a' b b' : list string) (x : string) :
  NoDup (a ++ x :: b) -> a ++ x :: b = a' ++ x :: b' -> a = a'.
Proof.
  revert a'. induction a as [|y a IH]; intros a' Hnd Heq.
  - destruct a' as [|y' a']; [reflexivity|].
    cbn in Heq. injection Heq as <- Hb. subst b.
    cbn in Hnd. apply NoDup_cons_iff in Hnd. exfalso. apply (proj1 Hnd).
    apply in_or_app. right. now left.
  - destruct a' as [|y' a'].
    + cbn in Heq. injection Heq as -> Hb.
      cbn in Hnd. apply NoDup_cons_iff in Hnd. exfalso. apply (proj1 Hnd).
      apply in_or_app. right. now left.
    + cbn in Heq. injection Heq as <- Heq. f_equal.
      apply IH; [|exact Heq]. cbn in Hnd. now apply NoDup_cons_iff in Hnd.
Qed.

Lemma NoDup_two (l : list string) (a b : string) :
  NoDup l -> In a l -> In b l -> a <> b -> (2 <= length l)%nat.
Proof.
  intros Hnd Ha Hb Hab.
  destruct l as [|x [|y l]]; cbn in *; try lia; intuition congruence.
Qed.

Lemma two_speakers_many (segments : list (Segment * string)) :
  two_speakers segments ->
  (length (nodup string_dec (map snd segments)) <=? 1)%nat = false.
Proof.
  intros (a & b & Hab & Ha & Hb). apply Nat.leb_gt.
  apply (NoDup_two _ a b); [apply NoDup_nodup| | |exact Hab];
    now apply nodup_In.
Qed.

(** *** The first of the minimal items *)

Lemma min_scan (xs : list (string * Q)) :
  forall (best : string * Q) (pre0 mid : list (string * Q)),
  (forall y, In y pre0 -> snd best < snd y) ->
  (forall y, In y mid -> snd best <= snd y) ->
  let b := fold_left (fun best y => if Qltb (snd y) (snd best) then y else best)
             xs best in
  exists pre post,
    pre0 ++ best :: mid ++ xs = pre ++ b :: post /\
    (forall y, In y pre -> snd b < snd y) /\
    (forall y, In y post -> snd b <= snd y).
Proof.
  induction xs as [|z xs IH]; intros best pre0 mid Hpre Hmid; cbn [fold_left].
  - exists pre0, mid. rewrite app_nil_r. auto.
  - destruct (Qltb (snd z) (snd best)) eqn:E.
    + apply Qltb_lt in E.
      destruct (IH z (pre0 ++ best :: mid) []) as (pre & post & Heq & H1 & H2).
      * intros y Hy. apply in_app_or in Hy.
        destruct Hy as [Hy|[<-|Hy]].
        -- specialize (Hpre y Hy). lra.
        -- exact E.
        -- specialize (Hmid y Hy). lra.
      * intros y [].
      * exists pre, post. split; [|auto].
        rewrite <- Heq. cbn [app]. rewrite <- !app_assoc. reflexivity.
    + apply Qltb_ge in E.
      destruct (IH best pre0 (mid ++ [z])) as (pre & post & Heq & H1 & H2).
      * exact Hpre.
      * intros y Hy. apply in_app_or in Hy.
        destruct Hy as [Hy|[<-|[]]]; [now apply Hmid|exact E].
      * exists pre, post. split; [|auto].
        rewrite <- Heq. rewrite <- !app_assoc. reflexivity.
Qed.

Lemma min_by_value_first (x : string * Q) (xs : list (string * Q)) :
  exists b pre post,
    min_by_value (x :: xs) = Ok b /\
    x :: xs = pre ++ b :: post /\
    (forall y, In y pre -> snd b < snd y) /\
    (forall y, In y post -> snd b <= snd y).
Proof.
  destruct (min_scan xs x [] []) as (pre & post & Heq & H1 & H2);
    [intros y []|intros y []|].
  eexists. exists pre, post. split; [reflexivity|].
  split; [exact Heq|]. split; assumption.
Qed.

(** *** The accumulation loop *)

Section Accumulation.

Variable duration : Segment -> Q.

Lemma total_duration_snoc (done : list (Segment * string)) (seg : Segment)
    (k k' : string) :
  total_duration duration (done ++ [(seg, k)]) k' =
  if String.eqb k k' then total_duration duration done k' + duration seg
  else total_duration duration done k'.
Proof.
  unfold total_duration, get_speaker_segments.
  rewrite filter_app. cbn [filter snd].
  destruct (String.eqb k k').
  - now rewrite !map_app, fold_left_app.
  - now rewrite app_nil_r.
Qed.

Lemma total_duration_unseen (done : list (Segment * string)) (k : string) :
  ~ In k (labels done) -> total_duration duration done k = 0.
Proof.
  intros Hnin. unfold total_duration, get_speaker_segments.
  replace (filter (fun p => String.eqb (snd p) k) done) with (@nil (Segment * string));
    [reflexivity|].
  symmetry. induction done as [|p done IH]; [reflexivity|].
  cbn [filter]. destruct (String.eqb (snd p) k) eqn:E.
  - apply String.eqb_eq in E. exfalso. apply Hnin. left. exact E.
  - apply IH. intros H. apply Hnin. now right.
Qed.

Lemma dict_mem_In (d : dict) (k : string) :
  dict_mem d k = true <-> In k (map fst d).
Proof.
  unfold dict_mem. rewrite existsb_exists, in_map_iff.
  split; intros (kv & H1 & H2).
  - apply String.eqb_eq in H2. now exists kv.
  - exists kv. split; [exact H2|]. now apply String.eqb_eq.
Qed.

Lemma dict_add_keys (d : dict) (k : string) (x : Q) :
  map fst (dict_add d k x) = map fst d.
Proof.
  unfold dict_add. rewrite map_map. apply map_ext.
  intros kv. now destruct (String.eqb (fst kv) k).
Qed.

Lemma dict_add_In (d : dict) (k k' : string) (x v' : Q) :
  In (k', v') (dict_add d k x) ->
  exists v, In (k', v) d /\
    v' = if String.eqb k' k then v + x else v.
Proof.
  unfold dict_add. rewrite in_map_iff. intros ([k0 v0] & Heq & Hin).
  cbn [fst snd] in Heq. destruct (String.eqb k0 k) eqn:E.
  - injection Heq as <- <-. exists v0. now rewrite E.
  - injection Heq as <- <-. exists v0. now rewrite E.
Qed.

Lemma add_segment_tracks (d : dict) (done : list (Segment * string))
    (p : Segment * string) :
  dict_tracks duration d done ->
  dict_tracks duration (add_segment duration d p) (done ++ [p]).
Proof.
  destruct p as [seg k]. intros [Hkeys Hvals].
  unfold add_segment, dict_tracks, labels.
  rewrite dict_add_keys, map_app. cbn [map snd].
  destruct (dict_mem d k) eqn:Emem; cbn [negb].
  - assert (Hk : In k (map snd done)).
    { apply first_seen_In. fold (labels done). rewrite <- Hkeys.
      now apply dict_mem_In. }
    split; [now rewrite first_seen_snoc_old|].
    intros k' v' Hin. apply dict_add_In in Hin.
    destruct Hin as (v & Hv & ->). rewrite (Hvals _ _ Hv).
    rewrite total_duration_snoc, (String.eqb_sym k k').
    reflexivity.
  - assert (Hk : ~ In k (map snd done)).
    { intros H. apply first_seen_In in H. fold (labels done) in H.
      rewrite <- Hkeys in H. apply dict_mem_In in H. congruence. }
    unfold dict_new_key. split.
    { rewrite map_app, first_seen_snoc_new by exact Hk. cbn [map fst].
      now rewrite Hkeys. }
    intros k' v' Hin. apply dict_add_In in Hin.
    destruct Hin as (v & Hv & ->).
    rewrite total_duration_snoc, (String.eqb_sym k k').
    apply in_app_or in Hv. destruct Hv as [Hv|[Hv|[]]].
    + now rewrite (Hvals _ _ Hv).
    + injection Hv as <- <-. rewrite String.eqb_refl.
      now rewrite total_duration_unseen.
Qed.

Lemma accumulate_tracks (rest : list (Segment * string)) :
  forall (d : dict) (done : list (Segment * string)),
  dict_tracks duration d done ->
  dict_tracks duration (fold_left (add_segment duration) rest d) (done ++ rest).
Proof.
  induction rest as [|p rest IH]; intros d done H; cbn [fold_left].
  - now rewrite app_nil_r.
  - replace (done ++ p :: rest) with ((done ++ [p]) ++ rest)
      by (rewrite <- app_assoc; reflexivity).
    apply IH. now apply add_segment_tracks.
Qed.

Lemma speaker_duration_tracks (segments : list (Segment * string)) :
  dict_tracks duration (fold_left (add_segment duration) segments []) segments.
Proof.
  apply (accumulate_tracks segments [] []). split; [reflexivity|intros k v []].
Qed.

(** What the ["duration"] method returns when two speakers are present:
    the first, in order of first appearance, of the speakers of minimal
    total. *)
Lemma duration_selection (segments : list (Segment * string)) :
  two_speakers segments ->
  exists s pre post,
    identify_interviewer duration segments "duration" = Ok s /\
    labels segments = pre ++ s :: post /\ ~ In s pre /\
    (forall s', In s' pre ->
       total_duration duration segments s < total_duration duration segments s') /\
    (forall s', In s' (labels segments) ->
       total_duration duration segments s <= total_duration duration segments s').
Proof.
  intros Htwo.
  pose proof (two_speakers_many segments Htwo) as Hmany.
  pose proof (speaker_duration_tracks segments) as [Hkeys Hvals].
  destruct segments as [|p0 segments'] eqn:Eseg.
  { destruct Htwo as (a & _ & _ & [] & _). }
  rewrite <- Eseg in *.
  destruct (fold_left (add_segment duration) segments []) as [|x xs] eqn:Ed.
  { rewrite Eseg in Hkeys. discriminate. }
  destruct (min_by_value_first x xs) as (b & dpre & dpost & Hmin & Hsplit & Hlt & Hle).
  destruct b as [s v].
  assert (Hv : v = total_duration duration segments s).
  { apply Hvals. rewrite Hsplit. apply in_or_app. right. now left. }
  assert (Hs : In s (labels segments)).
  { apply first_seen_In. rewrite <- Hkeys, Hsplit, map_app.
    apply in_or_app. right. now left. }
  destruct (in_split_first _ _ Hs) as (pre & post & Hlab & Hpre).
  exists s, pre, post.
  split.
  { unfold identify_interviewer. rewrite Eseg at 1. rewrite Hmany.
    cbn [String.eqb Ascii.eqb Bool.eqb andb]. rewrite Ed, Hmin. reflexivity. }
  split; [exact Hlab|]. split; [exact Hpre|].
  assert (Hin_d : forall s', In s' (labels segments) ->
            exists v', In (s', v') (x :: xs) /\
                       v' = total_duration duration segments s').
  { intros s' Hs'. apply first_seen_In in Hs'. rewrite <- Hkeys in Hs'.
    apply in_map_iff in Hs'. destruct Hs' as ([k' v'] & <- & Hin).
    exists v'. split; [exact Hin|]. now apply Hvals. }
  cbn [snd] in Hlt, Hle. rewrite Hv in Hlt, Hle.
  split.
  - intros s' Hs'.
    destruct (first_seen_prefix pre post s Hpre) as [rest Hfs].
    rewrite <- Hlab, <- Hkeys, Hsplit, map_app in Hfs. cbn [map fst] in Hfs.
    assert (Hdpre : map fst dpre = first_seen pre).
    { apply (NoDup_split_unique _ _ _ _ _) with (2 := Hfs).
      change (s :: map fst dpost) with (map fst ((s, v) :: dpost)).
      rewrite <- map_app, <- Hsplit, Hkeys.
      apply first_seen_NoDup. }
    assert (Hs'd : In s' (map fst dpre)) by (rewrite Hdpre; now apply first_seen_In).
    apply in_map_iff in Hs'd. destruct Hs'd as ([k' v'] & <- & Hin).
    cbn [fst]. specialize (Hlt _ Hin). cbn [snd] in Hlt.
    rewrite <- (Hvals k' v'); [exact Hlt|].
    rewrite Hsplit. apply in_or_app. now left.
  - intros s' Hs'. destruct (Hin_d s' Hs') as (v' & Hin & ->).
    rewrite Hsplit in Hin. apply in_app_or in Hin.
    destruct Hin as [Hin|[Heq|Hin]].
    + apply Qlt_le_weak. apply (Hlt _ Hin).
    + injection Heq as <- <-. apply Qle_refl.
    + apply (Hle _ Hin).
Qed.

End Accumulation.

(** C8. For every segment list with at least two distinct speaker labels,
    the ["duration"] method returns a speaker of the list whose summed
    segment durations are minimal among all speakers, and the timestamps
    emitted for removal are exactly the (start, end) pairs of that speaker's
    segments, in the order of the list. *)
Theorem duration_policy_minimal (duration : Segment -> Q)
    (segments : list (Segment * string)) :
  two_speakers segments ->
  exists s,
    identify_interviewer duration segments "duration" = Ok s /\
    In s (labels segments) /\
    (forall s', In s' (labels segments) ->
       total_duration duration segments s <= total_duration duration segments s') /\
    get_speaker_timestamps duration segments None "duration"
      = Ok (ranges_of segments s).
Proof.
  intros Htwo.
  destruct (duration_selection duration segments Htwo)
    as (s & pre & post & Hid & Hlab & _ & _ & Hmin).
  exists s. split; [exact Hid|].
  split; [rewrite Hlab; apply in_or_app; right; now left|].
  split; [exact Hmin|].
  unfold get_speaker_timestamps, ranges_of, get_speaker_segments.
  rewrite Hid. cbn [bind]. now rewrite map_map.
Qed.

Lemma duration_policy_minimal_witness :
  two_speakers scenario3 /\
  identify_interviewer pyannote_duration scenario3 "duration" = Ok "B"%string /\
  exists s,
    identify_interviewer pyannote_duration scenario3 "duration" = Ok s /\
    get_speaker_timestamps pyannote_duration scenario3 None "duration"
      = Ok (ranges_of scenario3 s) /\
    ranges_of scenario3 "B" = [(10, 12)].
Proof.
  assert (H : two_speakers scenario3).
  { exists "A"%string, "B"%string. split; [discriminate|].
    split; cbn; tauto. }
  split; [exact H|]. split; [reflexivity|].
  destruct (duration_policy_minimal pyannote_duration scenario3 H)
    as (s & H1 & _ & _ & H2).
  exists s. split; [exact H1|]. split; [exact H2|reflexivity].
Defined.

(** C10. Under the ["duration"] method with at least two distinct speakers,
    the speaker returned is the one of minimal total that appears first in
    the segment list: every speaker labelled before its first appearance
    has a strictly larger total, so a speaker that ties with it appears
    only later. *)
Theorem duration_policy_tie_break (duration : Segment -> Q)
    (segments : list (Segment * string)) :
  two_speakers segments ->
  exists s pre post,
    identify_interviewer duration segments "duration" = Ok s /\
    labels segments = pre ++ s :: post /\ ~ In s pre /\
    (forall s', In s' (labels segments) ->
       total_duration duration segments s <= total_duration duration segments s') /\
    (forall s', In s' pre ->
       total_duration duration segments s < total_duration duration segments s') /\
    (forall s', total_duration duration segments s'
                == total_duration duration segments s -> ~ In s' pre).
Proof.
  intros Htwo.
  destruct (duration_selection duration segments Htwo)
    as (s & pre & post & Hid & Hlab & Hpre & Hlt & Hmin).
  exists s, pre, post.
  split; [exact Hid|]. split; [exact Hlab|]. split; [exact Hpre|].
  split; [exact Hmin|]. split; [exact Hlt|].
  intros s' Htie Hin. specialize (Hlt s' Hin). rewrite Htie in Hlt.
  exact (Qlt_irrefl _ Hlt).
Qed.

Lemma duration_policy_tie_break_witness :
  two_speakers tied /\
  total_duration pyannote_duration tied "A" == total_duration pyannote_duration tied "B" /\
  identify_interviewer pyannote_duration tied "duration" = Ok "A"%string /\
  exists s pre post,
    identify_interviewer pyannote_duration tied "duration" = Ok s /\
    labels tied = pre ++ s :: post /\ ~ In s pre.
Proof.
  assert (H : two_speakers tied).
  { exists "A"%string, "B"%string. split; [discriminate|].
    split; cbn; tauto. }
  split; [exact H|]. split; [reflexivity|]. split; [reflexivity|].
  destruct (duration_policy_tie_break pyannote_duration tied H)
    as (s & pre & post & H1 & H2 & H3 & _).
  exists s, pre, post. split; [exact H1|]. split; [exact H2|exact H3].
Defined.

Lemma nodup_single (l : list string) (s : string) :
  l <> [] -> (forall x, In x l -> x = s) -> nodup string_dec l = [s].
Proof.
  induction l as [|a l IH]; [congruence|]. intros _ Hall.
  cbn [nodup]. destruct (in_dec string_dec a l) as [Hin|Hnin].
  - apply IH; [intros ->; destruct Hin|].
    intros x Hx. apply Hall. now right.
  - destruct l as [|b l].
    + cbn. f_equal. apply Hall. now left.
    + exfalso. apply Hnin. left.
      rewrite (Hall a), (Hall b); [reflexivity|right; now left|now left].
Qed.

(** C9, as the code has it.  For a method outside duration, first and
    manual: a segment list with at least two distinct speaker labels makes
    the call raise ValueError naming the method; the empty list returns the
    empty label and a list with a single speaker returns that speaker, the
    method not being looked at. *)
Theorem unknown_method_rejected (duration : Segment -> Q)
    (segments : list (Segment * string)) (method : string) :
  ~ known_method method ->
  (two_speakers segments ->
   identify_interviewer duration segments method
     = Raise (ValueError ("Unknown method: " ++ method))) /\
  (segments = [] ->
   identify_interviewer duration segments method = Ok ""%string) /\
  (forall s, segments <> [] ->
     (forall x, In x (labels segments) -> x = s) ->
     identify_interviewer duration segments method = Ok s).
Proof.
  intros Hunknown. unfold known_method in Hunknown.
  split; [|split].
  - intros Htwo. pose proof (two_speakers_many segments Htwo) as Hmany.
    destruct segments as [|p0 rest] eqn:E.
    { destruct Htwo as (a & _ & _ & [] & _). }
    unfold identify_interviewer. rewrite Hmany.
    destruct (String.eqb_spec method "first"); [tauto|].
    destruct (String.eqb_spec method "duration"); [tauto|].
    destruct (String.eqb_spec method "manual"); [tauto|].
    reflexivity.
  - intros ->. reflexivity.
  - intros s Hne Hall. destruct segments as [|p0 rest] eqn:E; [congruence|].
    unfold identify_interviewer.
    rewrite (nodup_single (map snd (p0 :: rest)) s); [reflexivity| |exact Hall].
    discriminate.
Qed.

Lemma unknown_method_rejected_witness :
  ~ known_method "bogus" /\
  identify_interviewer pyannote_duration scenario3 "bogus"
    = Raise (ValueError "Unknown method: bogus") /\
  identify_interviewer pyannote_duration [(mkSegment 0 10, "A"%string)] "bogus"
    = Ok "A"%string.
Proof.
  assert (H : ~ known_method "bogus").
  { intros [H|[H|H]]; discriminate H. }
  split; [exact H|].
  destruct (unknown_method_rejected pyannote_duration scenario3 "bogus" H)
    as (H1 & _ & _).
  destruct (unknown_method_rejected pyannote_duration
              [(mkSegment 0 10, "A"%string)] "bogus" H) as (_ & _ & H3).
  split.
  - apply H1. exists "A"%string, "B"%string. split; [discriminate|].
    split; cbn; tauto.
  - apply H3; [discriminate|]. intros x [<-|[]]. reflexivity.
Defined.

(** C9 as stated fails: on the empty segment list an unknown method is not
    rejected, the call returns the empty label. *)
Lemma unknown_method_not_always_rejected :
  ~ (forall (duration : Segment -> Q) (segments : list (Segment * string))
            (method : string),
       ~ known_method method ->
       exists e, identify_interviewer duration segments method = Raise e).
Proof.
  intros H.
  destruct (H pyannote_duration [] "bogus"%string) as [e He].
  - intros [E|[E|E]]; discriminate E.
  - discriminate He.
Qed.

End InterviewerSelector.

(** ** The excision engine *)
Module ExcisionEngine.

Section Engine.

Variable sample_rate : Z.

(** With fading off a turn of the loop only writes the mask. *)
Lemma cut_step_no_fade (smooth : Q) (audio : list Q) (mask : list bool)
    (t : Q * Q) :
  smooth <= 0 ->
  cut_step sample_rate smooth (audio, mask) t =
    Ok (audio, slice_fill mask (fst (code_range sample_rate (len audio) t))
                 (snd (code_range sample_rate (len audio) t)) false).
Proof.
  intros Hs. destruct t as [t0 t1]. unfold cut_step.
  rewrite (Qltb_nonpos smooth Hs). reflexivity.
Qed.

(** A turn of the loop that returns has kept the length of the array and
    written the mask over the range the code computed. *)
Lemma cut_step_frame (smooth : Q) (audio audio' : list Q)
    (mask mask' : list bool) (t : Q * Q) :
  cut_step sample_rate smooth (audio, mask) t = Ok (audio', mask') ->
  length audio' = length audio /\
  mask' = slice_fill mask (fst (code_range sample_rate (len audio) t))
            (snd (code_range sample_rate (len audio) t)) false.
Proof.
  destruct t as [t0 t1]. unfold cut_step, code_range, to_sample. cbn [fst snd].
  set (s := Z.max 0 (py_int (t0 * inject_Z sample_rate))).
  set (e := Z.min (len audio) (py_int (t1 * inject_Z sample_rate))).
  set (f := py_int (smooth * inject_Z sample_rate)).
  destruct (Qltb 0 smooth && (0 <? s)%Z).
  - destruct (linspace 1 0 (s - Z.max 0 (s - f))) as [c1|] eqn:E1;
      cbn [bind]; [|discriminate].
    destruct (slice_imul audio (Z.max 0 (s - f)) s _) as [a1|] eqn:E2;
      cbn [bind]; [|discriminate].
    apply slice_imul_length in E2.
    assert (Hlen : len a1 = len audio) by (unfold len; now rewrite E2).
    rewrite Hlen.
    destruct (Qltb 0 smooth && (e <? len audio)%Z).
    + destruct (linspace 0 1 _) as [c2|]; cbn [bind]; [|discriminate].
      destruct (slice_imul a1 e _ _) as [a2|] eqn:E3; cbn [bind]; [|discriminate].
      apply slice_imul_length in E3. intros [= <- <-].
      split; [congruence|reflexivity].
    + cbn [bind]. intros [= <- <-]. split; [exact E2|reflexivity].
  - cbn [bind].
    destruct (Qltb 0 smooth && (e <? len audio)%Z).
    + destruct (linspace 0 1 _) as [c2|]; cbn [bind]; [|discriminate].
      destruct (slice_imul audio e _ _) as [a2|] eqn:E3; cbn [bind]; [|discriminate].
      apply slice_imul_length in E3. intros [= <- <-].
      split; [exact E3|reflexivity].
    + cbn [bind]. intros [= <- <-]. split; reflexivity.
Qed.

(** A fade next to a boundary that lies within the array goes through. *)
Lemma fade_ok (audio : list Q) (lo hi : Z) (start stop : Q) :
  (0 <= lo <= hi)%Z -> (hi <= len audio)%Z ->
  exists audio',
    (fade_array <- linspace start stop (hi - lo) ;;
     slice_imul audio lo hi (slice fade_array 0 (hi - lo))) = Ok audio'.
Proof.
  intros Hlo Hhi.
  destruct (linspace_ok start stop (hi - lo)) as (c & Hc & Hl); [lia|].
  rewrite Hc. cbn [bind]. rewrite slice_whole by exact Hl.
  apply slice_imul_ok; assumption.
Qed.

(** A turn of the loop returns when the range is in bounds. *)
Lemma cut_step_ok (smooth : Q) (audio : list Q) (mask : list bool) (t : Q * Q) :
  (0 <= sample_rate)%Z -> in_bounds sample_rate (len audio) t ->
  exists audio', cut_step sample_rate smooth (audio, mask) t =
    Ok (audio', slice_fill mask (fst (code_range sample_rate (len audio) t))
                  (snd (code_range sample_rate (len audio) t)) false).
Proof.
  intros Hsr [Hstart Hend].
  destruct (Qlt_le_dec 0 smooth) as [Hpos|Hnonpos].
  2:{ exists audio. now apply cut_step_no_fade. }
  assert (Hf : (0 <= py_int (smooth * inject_Z sample_rate))%Z).
  { apply (to_sample_nonneg sample_rate smooth Hsr). lra. }
  destruct t as [t0 t1]. unfold in_bounds, to_sample in Hstart, Hend.
  cbn [fst snd] in Hstart, Hend.
  unfold cut_step, code_range, to_sample. cbn [fst snd].
  set (s := Z.max 0 (py_int (t0 * inject_Z sample_rate))) in *.
  set (e := Z.min (len audio) (py_int (t1 * inject_Z sample_rate))) in *.
  set (f := py_int (smooth * inject_Z sample_rate)) in *.
  assert (HL : (0 <= len audio)%Z) by (unfold len; lia).
  assert (Hstep1 : exists a1,
    (if Qltb 0 smooth && (0 <? s)%Z then
       fade_array <- linspace 1 0 (s - Z.max 0 (s - f)) ;;
       slice_imul audio (Z.max 0 (s - f)) s
         (slice fade_array 0 (s - Z.max 0 (s - f)))
     else Ok audio) = Ok a1 /\ length a1 = length audio).
  { destruct (Qltb 0 smooth && (0 <? s)%Z).
    - destruct (fade_ok audio (Z.max 0 (s - f)) s 1 0) as [a1 Ha1];
        [lia|unfold s; lia|].
      exists a1. split; [exact Ha1|].
      destruct (linspace 1 0 (s - Z.max 0 (s - f))); [|discriminate].
      cbn [bind] in Ha1. now apply slice_imul_length in Ha1.
    - exists audio. split; reflexivity. }
  destruct Hstep1 as (a1 & -> & Hl1). cbn [bind].
  assert (Hlen : len a1 = len audio) by (unfold len; now rewrite Hl1).
  rewrite Hlen.
  destruct (Qltb 0 smooth && (e <? len audio)%Z).
  - destruct (fade_ok a1 e (Z.min (len audio) (e + f)) 0 1) as [a2 Ha2];
      [unfold e; lia|rewrite Hlen; lia|].
    exists a2. now rewrite Ha2.
  - exists a1. reflexivity.
Qed.

(** *** The loop *)

Lemma cut_loop_frame (smooth : Q) (timestamps : list (Q * Q)) :
  forall (audio audio' : list Q) (mask mask' : list bool),
  cut_loop sample_rate smooth (audio, mask) timestamps = Ok (audio', mask') ->
  length audio' = length audio /\
  mask' = fold_left (fun m t =>
            slice_fill m (fst (code_range sample_rate (len audio) t))
              (snd (code_range sample_rate (len audio) t)) false)
            timestamps mask /\
  (smooth <= 0 -> audio' = audio).
Proof.
  induction timestamps as [|t rest IH]; intros audio audio' mask mask';
    cbn [cut_loop fold_left].
  - intros [= <- <-]. auto.
  - destruct (cut_step sample_rate smooth (audio, mask) t) as [[a1 m1]|] eqn:E;
      cbn [bind]; [|discriminate].
    intros Hloop. destruct (cut_step_frame _ _ _ _ _ _ E) as [Hl1 ->].
    destruct (IH _ _ _ _ Hloop) as (Hl & Hm & Ha).
    assert (Hlen : len a1 = len audio) by (unfold len; now rewrite Hl1).
    rewrite Hlen in Hm.
    split; [congruence|]. split; [exact Hm|].
    intros Hs. rewrite (Ha Hs).
    rewrite (cut_step_no_fade smooth audio mask t Hs) in E. congruence.
Qed.

Lemma cut_loop_ok (smooth : Q) (timestamps : list (Q * Q)) :
  (0 <= sample_rate)%Z ->
  forall (audio : list Q) (mask : list bool),
  Forall (in_bounds sample_rate (len audio)) timestamps ->
  exists st, cut_loop sample_rate smooth (audio, mask) timestamps = Ok st.
Proof.
  intros Hsr. induction timestamps as [|t rest IH]; intros audio mask Hall;
    cbn [cut_loop].
  - eexists. reflexivity.
  - inversion Hall as [|? ? Ht Hrest]; subst.
    destruct (cut_step_ok smooth audio mask t Hsr Ht) as [a1 E].
    rewrite E. cbn [bind].
    destruct (cut_step_frame _ _ _ _ _ _ E) as [Hl1 _].
    apply IH. unfold len in *. now rewrite Hl1.
Qed.

Lemma cut_loop_no_fade (smooth : Q) (timestamps : list (Q * Q)) :
  smooth <= 0 ->
  forall (audio : list Q) (mask : list bool),
  exists mask', cut_loop sample_rate smooth (audio, mask) timestamps
                = Ok (audio, mask').
Proof.
  intros Hs. induction timestamps as [|t rest IH]; intros audio mask;
    cbn [cut_loop].
  - eexists. reflexivity.
  - rewrite (cut_step_no_fade smooth audio mask t Hs). cbn [bind]. apply IH.
Qed.

(** *** The mask *)

Lemma fill_fold_nth (g : Q * Q -> Z * Z) (timestamps : list (Q * Q)) :
  (forall t, In t timestamps -> (0 <= fst (g t))%Z /\ (0 <= snd (g t))%Z) ->
  forall (mask : list bool),
  let mask' := fold_left (fun m t => slice_fill m (fst (g t)) (snd (g t)) false)
                 timestamps mask in
  length mask' = length mask /\
  forall i, (i < length mask)%nat ->
    nth i mask' true = nth i mask true && negb (covers (map g timestamps) i).
Proof.
  induction timestamps as [|t rest IH]; intros Hpos mask; cbn [fold_left map].
  - split; [reflexivity|]. intros i _. cbn. now rewrite andb_true_r.
  - destruct (IH (fun t' H => Hpos t' (or_intror H))
                 (slice_fill mask (fst (g t)) (snd (g t)) false)) as [Hl Hn].
    rewrite slice_fill_length in Hl, Hn.
    split; [exact Hl|]. intros i Hi. rewrite (Hn i Hi).
    destruct (Hpos t (or_introl eq_refl)) as [H0 H1].
    rewrite slice_fill_nth by assumption.
    unfold covers. cbn [existsb].
    destruct ((fst (g t) <=? Z.of_nat i)%Z && (Z.of_nat i <? snd (g t))%Z);
      cbn [orb negb andb]; [now rewrite andb_false_r|reflexivity].
Qed.

Lemma fill_fold_mask (g : Q * Q -> Z * Z) (timestamps : list (Q * Q)) (L : nat) :
  (forall t, In t timestamps -> (0 <= fst (g t))%Z /\ (0 <= snd (g t))%Z) ->
  fold_left (fun m t => slice_fill m (fst (g t)) (snd (g t)) false)
    timestamps (repeat true L)
  = mask_of L (map g timestamps).
Proof.
  intros Hpos.
  destruct (fill_fold_nth g timestamps Hpos (repeat true L)) as [Hl Hn].
  rewrite repeat_length in Hl, Hn.
  apply (nth_ext _ _ true true).
  - unfold mask_of. now rewrite Hl, length_map, length_seq.
  - intros i Hi. rewrite Hl in Hi. rewrite (Hn i Hi).
    rewrite nth_repeat_lt by exact Hi. cbn [andb]. unfold mask_of.
    rewrite (nth_indep _ true ((fun i => negb (covers (map g timestamps) i)) O))
      by (now rewrite length_map, length_seq).
    rewrite (map_nth (fun i => negb (covers (map g timestamps) i))).
    now rewrite seq_nth.
Qed.

Lemma mask_select_count {A : Type} (f : nat -> bool) (a : list A) :
  forall k,
  (length (mask_select a (map (fun i => negb (f i)) (seq k (length a))))
   + length (filter f (seq k (length a))) = length a)%nat.
Proof.
  induction a as [|x a IH]; intros k; [reflexivity|].
  cbn [length seq map mask_select filter].
  destruct (f k); cbn [negb length]; specialize (IH (S k)); lia.
Qed.

Lemma mask_of_select_length {A : Type} (a : list A) (ranges : list (Z * Z)) :
  length (mask_select a (mask_of (length a) ranges))
  = (length a - covered (length a) ranges)%nat.
Proof.
  pose proof (mask_select_count (covers ranges) a 0) as H.
  unfold mask_of, covered. lia.
Qed.

Lemma covers_perm (l l' : list (Z * Z)) (i : nat) :
  Permutation l l' -> covers l i = covers l' i.
Proof.
  unfold covers. induction 1 as [|x l l' _ IH|x y l|l l' l'' _ IH1 _ IH2];
    cbn [existsb].
  - reflexivity.
  - now rewrite IH.
  - now rewrite !orb_assoc, (orb_comm (_ && _) (_ && _)).
  - congruence.
Qed.

Lemma mask_of_ext (L : nat) (r r' : list (Z * Z)) :
  (forall i, (i < L)%nat -> covers r i = covers r' i) ->
  mask_of L r = mask_of L r'.
Proof.
  intros H. unfold mask_of. apply map_ext_in. intros i Hi.
  apply in_seq in Hi. rewrite H by lia. reflexivity.
Qed.

Lemma covered_ext (L : nat) (r r' : list (Z * Z)) :
  (forall i, covers r i = covers r' i) -> covered L r = covered L r'.
Proof.
  intros H. unfold covered. f_equal. apply filter_ext. exact H.
Qed.

(** *** The sort *)

Lemma insert_sorted_perm (x : Q * Q) (l : list (Q * Q)) :
  Permutation (insert_sorted x l) (x :: l).
Proof.
  induction l as [|y l IH]; cbn [insert_sorted]; [reflexivity|].
  destruct (tuple_ltb y x); [|reflexivity].
  rewrite IH. apply perm_swap.
Qed.

Lemma sorted_perm (l : list (Q * Q)) : Permutation (sorted l) l.
Proof.
  induction l as [|x l IH]; [reflexivity|].
  cbn [sorted fold_right]. fold (sorted l).
  rewrite insert_sorted_perm. now constructor.
Qed.





(** *** The cut *)

Lemma code_range_clamped (L : Z) (t : Q * Q) :
  (0 <= L)%Z -> in_bounds sample_rate L t ->
  code_range sample_rate L t = clamped_range sample_rate L t.
Proof.
  intros HL [H1 H2]. unfold code_range, clamped_range, clamp.
  f_equal; lia.
Qed.

(** What the cut returns once its loop has returned. *)
Lemma cut_segments_result (audio : list Q) (timestamps : list (Q * Q))
    (smooth : Q) (audio' : list Q) (mask' : list bool) :
  cut_loop sample_rate smooth (audio, repeat true (length audio))
    (sorted timestamps) = Ok (audio', mask') ->
  cut_segments sample_rate audio timestamps smooth
    = Ok (audio', mask_select audio' mask').
Proof. intros H. unfold cut_segments. now rewrite H. Qed.

(** Length conservation for ranges in bounds: the cut returns, the caller's
    array keeps its length, and the output has the length of the input less
    the number of samples the clamped ranges cover. *)
Lemma cut_segments_in_bounds (audio : list Q) (timestamps : list (Q * Q))
    (smooth : Q) :
  (0 <= sample_rate)%Z ->
  Forall (in_bounds sample_rate (len audio)) timestamps ->
  exists audio' out,
    cut_segments sample_rate audio timestamps smooth = Ok (audio', out) /\
    length audio' = length audio /\
    length out =
      (length audio
       - covered (length audio)
           (map (clamped_range sample_rate (len audio)) timestamps))%nat.
Proof.
  intros Hsr Hall.
  assert (Hall' : Forall (in_bounds sample_rate (len audio)) (sorted timestamps)).
  { rewrite Forall_forall in *. intros t Ht. apply Hall.
    apply (Permutation_in _ (sorted_perm timestamps) Ht). }
  destruct (cut_loop_ok smooth (sorted timestamps) Hsr audio
              (repeat true (length audio)) Hall') as [[a' m'] Hloop].
  exists a', (mask_select a' m').
  split; [now apply cut_segments_result|].
  destruct (cut_loop_frame _ _ _ _ _ _ Hloop) as (Hl & Hm & _).
  split; [exact Hl|].
  assert (HL : (0 <= len audio)%Z) by (unfold len; lia).
  rewrite fill_fold_mask in Hm.
  2:{ intros t Ht. unfold code_range. cbn [fst snd].
      rewrite Forall_forall in Hall'. destruct (Hall' t Ht) as [_ H2]. lia. }
  rewrite Hm, <- Hl, mask_of_select_length, Hl. f_equal.
  apply covered_ext. intros i.
  rewrite (covers_perm _ (map (code_range sample_rate (len audio)) timestamps))
    by (apply Permutation_map, sorted_perm).
  f_equal. apply map_ext_in. intros t Ht.
  rewrite Forall_forall in Hall. now apply code_range_clamped, Hall.
Qed.

(** With fading off the cut returns, leaves the array alone, and keeps
    what the code's ranges do not cover. *)
Lemma cut_segments_no_fade (audio : list Q) (timestamps : list (Q * Q))
    (smooth : Q) :
  smooth <= 0 ->
  (forall t, In t timestamps -> (0 <= to_sample sample_rate (snd t))%Z) ->
  cut_segments sample_rate audio timestamps smooth =
    Ok (audio,
        mask_select audio
          (mask_of (length audio)
             (map (code_range sample_rate (len audio)) timestamps))).
Proof.
  intros Hs Hend.
  destruct (cut_loop_no_fade smooth (sorted timestamps) Hs audio
              (repeat true (length audio))) as [m' Hloop].
  rewrite (cut_segments_result _ _ _ _ _ Hloop). do 2 f_equal.
  destruct (cut_loop_frame _ _ _ _ _ _ Hloop) as (_ & -> & _).
  rewrite fill_fold_mask.
  - f_equal. apply mask_of_ext. intros i _. apply covers_perm.
    apply Permutation_map, sorted_perm.
  - intros t Ht. apply (Permutation_in _ (sorted_perm timestamps)) in Ht.
    specialize (Hend t Ht). unfold code_range. cbn [fst snd].
    assert (0 <= len audio)%Z by (unfold len; lia). lia.
Qed.



End Engine.

(** X2. The missing upper clamp of the start, in general: a single range whose
    start converts past the end of the buffer makes the cut raise as soon
    as the fade-out spans two samples or more. *)
Lemma cut_segments_raises_past_end (sample_rate : Z) (audio : list Q)
    (t0 t1 smooth : Q) :
  0 < smooth ->
  (len audio < to_sample sample_rate t0)%Z ->
  (2 <= to_sample sample_rate t0)%Z ->
  (2 <= to_sample sample_rate smooth)%Z ->
  cut_segments sample_rate audio [(t0, t1)] smooth
  = Raise (ValueError "operands could not be broadcast together").
Proof.
  unfold to_sample. intros Hs Hpast Hs2 Hf2.
  unfold cut_segments. cbn [sorted fold_right insert_sorted cut_loop cut_step].
  set (s := py_int (t0 * inject_Z sample_rate)) in *.
  set (f := py_int (smooth * inject_Z sample_rate)) in *.
  assert (HL : (0 <= len audio)%Z) by (unfold len; lia).
  apply Qltb_lt in Hs. rewrite Hs.
  rewrite Z.max_r by lia.
  destruct (Z.ltb_spec 0 s) as [_|]; [|lia]. cbn [andb].
  destruct (linspace_ok 1 0 (s - Z.max 0 (s - f))) as (c & Hc & Hl); [lia|].
  rewrite Hc. cbn [bind]. rewrite slice_whole by exact Hl.
  unfold slice_imul.
  rewrite slice_bounds_nonneg by lia.
  replace (Z.min s (len audio)) with (len audio) by lia.
  rewrite Z.max_r by lia. rewrite Hl.
  destruct (Nat.eqb_spec (Z.to_nat (s - Z.max 0 (s - f)))
              (Z.to_nat (len audio)
               - Z.to_nat (Z.min (Z.max 0 (s - f)) (len audio)))) as [E|_];
    [lia|].
  destruct (Nat.eqb_spec (Z.to_nat (s - Z.max 0 (s - f))) 1) as [E|_]; [lia|].
  reflexivity.
Qed.


(** C1. On a range that lies before the start of the buffer the output is
    not the input less the clamped range: clamped to the buffer the range
    (-2 s, -1 s) covers no sample of a 100-sample buffer at 10 samples per
    second, yet the cut keeps only the last 10 samples, because the end
    index -10 is left negative and the mask slice counts it from the end.
    And for the range (10.5 s, 11 s), past the end of the buffer, with a
    fade of 0.5 s there is no output at all: the cut raises. *)
Theorem cut_segments_negative_range_length :
  cut_segments 10 (ones 100) [(-2 # 1, -1 # 1)] 0 = Ok (ones 100, ones 10) /\
  covered 100 (map (clamped_range 10 100) [(-2 # 1, -1 # 1)]) = 0%nat /\
  code_range 10 100 (-2 # 1, -1 # 1) = (0, -10)%Z /\
  cut_segments 10 (ones 100) [(21 # 2, 11 # 1)] (1 # 2)
    = Raise (ValueError "operands could not be broadcast together").
Proof. split; [|split; [|split]]; vm_compute; reflexivity. Qed.

(** C2. A range that starts past the end of the buffer is not clamped: its
    start index stays above the buffer length, the fade-out slice is cut
    short by the array while the fade curve is not, and the in-place
    product raises ValueError. *)
Theorem cut_segments_start_past_end_raises :
  cut_segments 10 (ones 100) [(41 # 4, 21 # 2)] (1 # 2)
    = Raise (ValueError "operands could not be broadcast together") /\
  code_range 10 100 (41 # 4, 21 # 2) = (102, 100)%Z /\
  clamped_range 10 100 (41 # 4, 21 # 2) = (100, 100)%Z.
Proof. split; [|split]; vm_compute; reflexivity. Qed.




(** C4, as the code has it.  When the cut returns, the caller's array has
    kept its length, and with a fade duration that is not positive it
    holds the samples it held before the call.  (With a positive fade
    duration the tapers are written into the caller's array.) *)
Theorem cut_segments_caller_array (sample_rate : Z) (audio : list Q)
    (timestamps : list (Q * Q)) (smooth : Q) (audio' out : list Q) :
  cut_segments sample_rate audio timestamps smooth = Ok (audio', out) ->
  length audio' = length audio /\ (smooth <= 0 -> audio' = audio).
Proof.
  unfold cut_segments.
  destruct (cut_loop sample_rate smooth (audio, repeat true (length audio))
              (sorted timestamps)) as [[a' m']|] eqn:E; cbn [bind];
    [|discriminate].
  intros [= <- _].
  destruct (cut_loop_frame _ _ _ _ _ _ _ E) as (Hl & _ & Ha).
  split; assumption.
Qed.

Lemma cut_segments_caller_array_witness :
  cut_segments 10 (ones 100) [(3, 5)] 0
    = Ok (ones 100, ones 80) /\
  length (ones 100) = length (ones 100) /\ (0 <= 0 -> ones 100 = ones 100).
Proof.
  assert (H : cut_segments 10 (ones 100) [(3, 5)] 0 = Ok (ones 100, ones 80))
    by (vm_compute; reflexivity).
  split; [exact H|].
  exact (cut_segments_caller_array 10 (ones 100) [(3, 5)] 0 (ones 100)
           (ones 80) H).
Defined.

(** C4 as stated fails: with a positive fade duration the samples next to
    the cut are scaled in the caller's array. *)
Lemma cut_segments_writes_caller_array :
  ~ (forall (sample_rate : Z) (audio : list Q) (timestamps : list (Q * Q))
            (smooth : Q) (audio' out : list Q),
       cut_segments sample_rate audio timestamps smooth = Ok (audio', out) ->
       audio' = audio).
Proof.
  intros H.
  destruct (cut_segments 10 (ones 20) [(1, 3 # 2)] (1 # 2))
    as [[audio' out]|] eqn:E; [|vm_compute in E; discriminate E].
  pose proof (H _ _ _ _ _ _ E) as Heq. subst audio'.
  vm_compute in E. discriminate E.
Qed.

End ExcisionEngine.

(** ** Further properties of the excision engine *)
Module EngineProperties.

Import ExcisionEngine.

Lemma mask_select_true {A : Type} (a : list A) :
  mask_select a (repeat true (length a)) = a.
Proof. induction a as [|x a IH]; cbn; [reflexivity|now rewrite IH]. Qed.

Lemma mask_select_false {A : Type} (a : list A) (n : nat) :
  mask_select a (repeat false n) = [].
Proof.
  revert n. induction a as [|x a IH]; intros [|n]; cbn; auto.
Qed.

Lemma mask_select_app {A : Type} (a1 a2 : list A) (m1 m2 : list bool) :
  length a1 = length m1 ->
  mask_select (a1 ++ a2) (m1 ++ m2) = mask_select a1 m1 ++ mask_select a2 m2.
Proof.
  revert m1. induction a1 as [|x a1 IH]; intros [|b m1] Hl; try discriminate.
  - reflexivity.
  - cbn in Hl. injection Hl as Hl. cbn [app mask_select].
    rewrite (IH m1 Hl). now destruct b.
Qed.

Lemma mask_select_In {A : Type} (a : list A) (mask : list bool) (y : A) :
  In y (mask_select a mask) -> In y a.
Proof.
  revert mask. induction a as [|x a IH]; intros [|b mask]; cbn; try tauto.
  destruct b; cbn; intros H.
  - destruct H as [H|H]; [now left|right; now apply (IH mask)].
  - right. now apply (IH mask).
Qed.

Lemma firstn_repeat_le {A : Type} (v : A) (n k : nat) :
  (k <= n)%nat -> firstn k (repeat v n) = repeat v k.
Proof.
  revert n. induction k as [|k IH]; intros n Hk; [reflexivity|].
  destruct n as [|n]; [lia|]. cbn. f_equal. apply IH. lia.
Qed.

Lemma skipn_repeat_le {A : Type} (v : A) (n k : nat) :
  (k <= n)%nat -> skipn k (repeat v n) = repeat v (n - k).
Proof.
  revert n. induction k as [|k IH]; intros n Hk.
  - now rewrite Nat.sub_0_r.
  - destruct n as [|n]; [lia|]. cbn. apply IH. lia.
Qed.

(** An array split at two indices. *)
Lemma patch_decompose {A : Type} (a : list A) (lo hi : nat) :
  (lo <= hi)%nat ->
  a = firstn lo a ++ firstn (hi - lo) (skipn lo a) ++ skipn hi a.
Proof.
  intros H.
  replace (skipn hi a) with (skipn (hi - lo) (skipn lo a))
    by (rewrite skipn_skipn; f_equal; lia).
  now rewrite !firstn_skipn.
Qed.

Lemma in_firstn {A : Type} (l : list A) (n : nat) (x : A) :
  In x (firstn n l) -> In x l.
Proof.
  intros H. rewrite <- (firstn_skipn n l). apply in_or_app. now left.
Qed.

Lemma in_skipn {A : Type} (l : list A) (n : nat) (x : A) :
  In x (skipn n l) -> In x l.
Proof.
  intros H. rewrite <- (firstn_skipn n l). apply in_or_app. now right.
Qed.

Lemma in_slice {A : Type} (l : list A) (i j : Z) (x : A) :
  In x (slice l i j) -> In x l.
Proof.
  unfold slice. destruct (slice_bounds (len l) i j) as [lo hi].
  intros H. apply in_firstn in H. now apply in_skipn in H.
Qed.

(** X3. With no range to remove the cut returns every sample, in order,
    and leaves the caller's array as it was, whatever the fade duration. *)
Theorem cut_segments_nothing_to_remove (sample_rate : Z) (audio : list Q)
    (smooth : Q) :
  cut_segments sample_rate audio [] smooth = Ok (audio, audio).
Proof.
  unfold cut_segments. cbn [sorted fold_right cut_loop bind].
  now rewrite mask_select_true.
Qed.

(** X4. With fading off, a single range that converts to the samples
    [s, e) with [s <= e] is cut out as such: the output is the [s] samples
    before it followed by the samples from [e] on. *)
Theorem cut_segments_single_range (sample_rate : Z) (audio : list Q)
    (t0 t1 smooth : Q) :
  smooth <= 0 ->
  (fst (code_range sample_rate (len audio) (t0, t1))
   <= snd (code_range sample_rate (len audio) (t0, t1)))%Z ->
  cut_segments sample_rate audio [(t0, t1)] smooth =
    Ok (audio,
        firstn (Z.to_nat (fst (code_range sample_rate (len audio) (t0, t1))))
          audio
        ++ skipn (Z.to_nat (snd (code_range sample_rate (len audio) (t0, t1))))
             audio).
Proof.
  intros Hs Hse. unfold cut_segments.
  cbn [sorted fold_right insert_sorted cut_loop].
  rewrite (cut_step_no_fade sample_rate smooth audio _ (t0, t1) Hs).
  cbn [bind]. do 2 f_equal.
  set (s := fst (code_range sample_rate (len audio) (t0, t1))) in *.
  set (e := snd (code_range sample_rate (len audio) (t0, t1))) in *.
  assert (Hs0 : (0 <= s)%Z) by (unfold s, code_range; cbn [fst]; lia).
  assert (HeL : (e <= len audio)%Z) by (unfold e, code_range; cbn [snd]; lia).
  unfold slice_fill. unfold len in *. rewrite repeat_length.
  rewrite slice_bounds_nonneg by lia.
  assert (Elo : Z.to_nat (Z.min s (Z.of_nat (length audio)))
                = Nat.min (Z.to_nat s) (length audio)) by lia.
  assert (Ehi : Z.to_nat (Z.max (Z.min s (Z.of_nat (length audio)))
                            (Z.min e (Z.of_nat (length audio))))
                = Z.to_nat e) by lia.
  rewrite Elo, Ehi.
  set (lo := Nat.min (Z.to_nat s) (length audio)).
  set (hi := Z.to_nat e).
  assert (Hlohi : (lo <= hi <= length audio)%nat) by (unfold lo, hi; lia).
  rewrite firstn_repeat_le, skipn_repeat_le by lia.
  rewrite (patch_decompose audio lo hi) at 1 by lia.
  rewrite mask_select_app by (rewrite length_firstn, repeat_length; lia).
  rewrite mask_select_app
    by (rewrite length_firstn, length_skipn, repeat_length; lia).
  rewrite mask_select_false.
  replace lo with (length (firstn lo audio)) at 2
    by (rewrite length_firstn; lia).
  replace (length audio - hi)%nat with (length (skipn hi audio))
    by (rewrite length_skipn; lia).
  rewrite !mask_select_true. cbn [app]. f_equal.
  unfold lo. destruct (Nat.le_ge_cases (Z.to_nat s) (length audio)) as [H|H].
  - now rewrite Nat.min_l.
  - rewrite Nat.min_r by lia. now rewrite !firstn_all2 by lia.
Qed.

Lemma cut_segments_single_range_witness :
  0 <= 0 /\
  (fst (code_range 10 (len (ones 100)) (3%Q, 5%Q))
   <= snd (code_range 10 (len (ones 100)) (3%Q, 5%Q)))%Z /\
  cut_segments 10 (ones 100) [(3, 5)] 0 = Ok (ones 100, ones 80).
Proof.
  assert (H1 : 0 <= 0) by (unfold Qle; cbn; lia).
  assert (H2 : (fst (code_range 10 (len (ones 100)) (3%Q, 5%Q))
                <= snd (code_range 10 (len (ones 100)) (3%Q, 5%Q)))%Z)
    by (vm_compute; discriminate).
  split; [exact H1|]. split; [exact H2|].
  rewrite (cut_segments_single_range 10 (ones 100) 3 5 0 H1 H2).
  vm_compute. reflexivity.
Defined.

(** *** Fades never make a sample louder *)

Lemma no_louder_refl (a : list Q) : Forall2 no_louder a a.
Proof.
  induction a; constructor; [apply Qle_refl|assumption].
Qed.

Lemma no_louder_trans (a b c : list Q) :
  Forall2 no_louder a b -> Forall2 no_louder b c -> Forall2 no_louder a c.
Proof.
  intros Hab. revert c. induction Hab as [|x y a b Hxy _ IH]; intros c Hbc.
  - inversion Hbc. constructor.
  - inversion Hbc as [|? z ? c' Hyz Hbc']; subst. constructor.
    + unfold no_louder in *. now apply Qle_trans with (Qabs y).
    + now apply IH.
Qed.

Lemma scaled_no_louder (x g : Q) : 0 <= g <= 1 -> no_louder (x * g) x.
Proof.
  intros [H0 H1]. unfold no_louder. rewrite Qabs_Qmult, (Qabs_pos g H0).
  rewrite <- (Qmult_1_r (Qabs x)) at 2.
  rewrite !(Qmult_comm (Qabs x)).
  apply Qmult_le_compat_r; [exact H1|apply Qabs_nonneg].
Qed.

Lemma mul_elementwise_no_louder (xs ys : list Q) :
  length ys = length xs -> (forall g, In g ys -> 0 <= g <= 1) ->
  Forall2 no_louder (mul_elementwise xs ys) xs.
Proof.
  revert ys. induction xs as [|x xs IH]; intros [|y ys] Hl Hg;
    try discriminate; cbn [mul_elementwise]; constructor.
  - apply scaled_no_louder. apply Hg. now left.
  - apply IH; [now injection Hl|]. intros g H. apply Hg. now right.
Qed.

Lemma map_scale_no_louder (xs : list Q) (g : Q) :
  0 <= g <= 1 -> Forall2 no_louder (map (fun x => x * g) xs) xs.
Proof.
  intros Hg. induction xs; cbn; constructor;
    [now apply scaled_no_louder|assumption].
Qed.

Lemma slice_imul_no_louder (a b a' : list Q) (i j : Z) :
  slice_imul a i j b = Ok a' -> (forall g, In g b -> 0 <= g <= 1) ->
  Forall2 no_louder a' a.
Proof.
  unfold slice_imul. destruct (slice_bounds (len a) i j) as [lo hi] eqn:E.
  apply slice_bounds_range in E. intros H Hg.
  assert (Ht : length (firstn (hi - lo) (skipn lo a)) = (hi - lo)%nat).
  { rewrite length_firstn, length_skipn. lia. }
  assert (Hpatch : forall mid,
            Forall2 no_louder mid (firstn (hi - lo) (skipn lo a)) ->
            Forall2 no_louder (firstn lo a ++ mid ++ skipn hi a) a).
  { intros mid Hmid.
    pose proof (patch_decompose a lo hi ltac:(lia)) as D.
    remember (firstn lo a) as before.
    remember (skipn hi a) as after.
    remember (firstn (hi - lo) (skipn lo a)) as target.
    rewrite D.
    apply Forall2_app; [apply no_louder_refl|].
    apply Forall2_app; [exact Hmid|apply no_louder_refl]. }
  destruct (Nat.eqb_spec (length b) (hi - lo)) as [Hb|Hb].
  - injection H as <-. apply Hpatch.
    apply mul_elementwise_no_louder; [congruence|exact Hg].
  - destruct (Nat.eqb_spec (length b) 1) as [Hb1|]; [|discriminate].
    injection H as <-. apply Hpatch.
    apply map_scale_no_louder. apply Hg.
    destruct b as [|g b]; [discriminate|now left].
Qed.

(** The gains of a curve between two values of [0, 1] lie in [0, 1]. *)
Lemma linspace_unit (start stop : Q) (num : Z) (curve : list Q) :
  linspace start stop num = Ok curve ->
  0 <= start <= 1 -> 0 <= stop <= 1 ->
  forall g, In g curve -> 0 <= g <= 1.
Proof.
  unfold linspace. destruct (num <? 0)%Z; [discriminate|].
  destruct (Z.to_nat num) as [|[|m]]; intros H Hstart Hstop g Hin.
  - assert (E : curve = []) by congruence. rewrite E in Hin. destruct Hin.
  - assert (E : curve = [start]) by congruence. rewrite E in Hin.
    destruct Hin as [<-|[]]. exact Hstart.
  - assert (E : curve =
                map (fun i => inject_Z (Z.of_nat i)
                              * ((stop - start) / inject_Z (Z.of_nat (S m)))
                              + start) (seq 0 (S m)) ++ [stop])
      by congruence.
    rewrite E in Hin. clear E H.
    apply in_app_or in Hin. destruct Hin as [Hin|[<-|[]]]; [|exact Hstop].
    apply in_map_iff in Hin. destruct Hin as (i & <- & Hi).
    apply in_seq in Hi.
    pose proof (FadeCurve.inject_nat_pos m) as Hpos.
    set (M := inject_Z (Z.of_nat (S m))) in *.
    set (r := inject_Z (Z.of_nat i) / M).
    assert (Hr0 : 0 <= r).
    { unfold r, Qdiv. apply Qmult_le_0_compat.
      - replace 0 with (inject_Z 0) by reflexivity. rewrite <- Zle_Qle. lia.
      - apply Qlt_le_weak, Qinv_lt_0_compat, Hpos. }
    assert (Hr1 : r <= 1).
    { unfold r. apply Qle_shift_div_r; [exact Hpos|]. rewrite Qmult_1_l.
      unfold M. rewrite <- Zle_Qle. lia. }
    assert (E' : inject_Z (Z.of_nat i) * ((stop - start) / M) + start
                == start * (1 - r) + stop * r).
    { unfold r. field. apply FadeCurve.inject_nat_neq. }
    rewrite E'. destruct Hstart, Hstop. split; nra.
Qed.

(** One conditional fade of [cut_segments]. *)
Lemma fade_no_louder (c : bool) (audio audio' : list Q) (lo hi : Z)
    (start stop : Q) :
  (if c then
     fade_array <- linspace start stop (hi - lo) ;;
     slice_imul audio lo hi (slice fade_array 0 (hi - lo))
   else Ok audio) = Ok audio' ->
  0 <= start <= 1 -> 0 <= stop <= 1 ->
  Forall2 no_louder audio' audio.
Proof.
  destruct c; [|intros [= <-] _ _; apply no_louder_refl].
  destruct (linspace start stop (hi - lo)) as [curve|] eqn:E; cbn [bind];
    [|discriminate].
  intros H Hstart Hstop. apply (slice_imul_no_louder _ _ _ _ _ H).
  intros g Hg. apply in_slice in Hg.
  now apply (linspace_unit _ _ _ _ E).
Qed.

Lemma cut_step_no_louder (sample_rate : Z) (smooth : Q)
    (audio audio' : list Q) (mask mask' : list bool) (t : Q * Q) :
  cut_step sample_rate smooth (audio, mask) t = Ok (audio', mask') ->
  Forall2 no_louder audio' audio.
Proof.
  destruct t as [t0 t1]. unfold cut_step.
  match goal with
  | |- bind ?fade_out _ = _ -> _ => destruct fade_out as [a1|] eqn:E1
  end; cbn [bind]; [|discriminate].
  match goal with
  | |- bind ?fade_in _ = _ -> _ => destruct fade_in as [a2|] eqn:E2
  end; cbn [bind]; [|discriminate].
  intros [= <- _].
  assert (H01 : 0 <= 0 <= 1) by (split; unfold Qle; cbn; lia).
  assert (H11 : 0 <= 1 <= 1) by (split; unfold Qle; cbn; lia).
  apply no_louder_trans with a1.
  - exact (fade_no_louder _ _ _ _ _ _ _ E2 H01 H11).
  - exact (fade_no_louder _ _ _ _ _ _ _ E1 H11 H01).
Qed.

Lemma cut_loop_no_louder (sample_rate : Z) (smooth : Q)
    (timestamps : list (Q * Q)) :
  forall (audio audio' : list Q) (mask mask' : list bool),
  cut_loop sample_rate smooth (audio, mask) timestamps = Ok (audio', mask') ->
  Forall2 no_louder audio' audio.
Proof.
  induction timestamps as [|t rest IH]; intros audio audio' mask mask';
    cbn [cut_loop].
  - intros [= <- _]. apply no_louder_refl.
  - destruct (cut_step sample_rate smooth (audio, mask) t) as [[a1 m1]|] eqn:E;
      cbn [bind]; [|discriminate].
    intros H. apply no_louder_trans with a1.
    + exact (IH _ _ _ _ H).
    + exact (cut_step_no_louder _ _ _ _ _ _ _ E).
Qed.

Lemma no_louder_bound (a' a : list Q) (M y : Q) :
  Forall2 no_louder a' a -> (forall x, In x a -> Qabs x <= M) ->
  In y a' -> Qabs y <= M.
Proof.
  induction 1 as [|y' x a' a Hyx _ IH]; intros HM Hin; [destruct Hin|].
  destruct Hin as [<-|Hin].
  - apply Qle_trans with (Qabs x); [exact Hyx|]. apply HM. now left.
  - apply IH; [|exact Hin]. intros z Hz. apply HM. now right.
Qed.

(** X5. A cut never makes a sample louder: when it returns, every sample
    of the caller's array is, in absolute value, at most what it was before
    the call, every output sample is one of those samples, and so a bound
    on the input's amplitudes bounds the output's. *)
Theorem cut_segments_never_louder (sample_rate : Z) (audio : list Q)
    (timestamps : list (Q * Q)) (smooth : Q) (audio' out : list Q) :
  cut_segments sample_rate audio timestamps smooth = Ok (audio', out) ->
  Forall2 no_louder audio' audio /\
  incl out audio' /\
  forall M, (forall x, In x audio -> Qabs x <= M) ->
            forall y, In y out -> Qabs y <= M.
Proof.
  unfold cut_segments.
  destruct (cut_loop sample_rate smooth (audio, repeat true (length audio))
              (sorted timestamps)) as [[a' m']|] eqn:E; cbn [bind];
    [|discriminate].
  intros [= <- <-].
  pose proof (cut_loop_no_louder _ _ _ _ _ _ _ E) as Hq.
  assert (Hincl : incl (mask_select a' m') a').
  { intros y Hy. now apply mask_select_In in Hy. }
  split; [exact Hq|]. split; [exact Hincl|].
  intros M HM y Hy. apply (no_louder_bound a' audio M y Hq HM).
  now apply Hincl.
Qed.

Lemma cut_segments_never_louder_witness :
  exists audio' out,
    cut_segments 10 (ones 20) [(1, 3 # 2)] (1 # 2) = Ok (audio', out) /\
    Forall2 no_louder audio' (ones 20) /\ incl out audio'.
Proof.
  destruct (cut_segments 10 (ones 20) [(1, 3 # 2)] (1 # 2))
    as [[audio' out]|] eqn:E; [|vm_compute in E; discriminate E].
  exists audio', out. split; [reflexivity|].
  destruct (cut_segments_never_louder _ _ _ _ _ _ E) as (H1 & H2 & _).
  split; assumption.
Defined.

(** X6. With fading off the order of the ranges and their repetitions do
    not matter: two lists that are rearrangements of one another, with
    ends that do not convert below 0, give the same output. *)
Theorem cut_segments_order_irrelevant (sample_rate : Z) (audio : list Q)
    (timestamps timestamps' : list (Q * Q)) (smooth : Q) :
  smooth <= 0 ->
  Permutation timestamps timestamps' ->
  (forall t, In t timestamps -> (0 <= to_sample sample_rate (snd t))%Z) ->
  cut_segments sample_rate audio timestamps smooth
  = cut_segments sample_rate audio timestamps' smooth.
Proof.
  intros Hs Hperm Hend.
  rewrite !cut_segments_no_fade; try assumption.
  - do 3 f_equal. apply mask_of_ext. intros i _. apply covers_perm.
    now apply Permutation_map.
  - intros t Ht. apply Hend.
    apply (Permutation_in _ (Permutation_sym Hperm) Ht).
Qed.

Lemma cut_segments_order_irrelevant_witness :
  0 <= 0 /\
  Permutation [(3, 5); (7, 8)] [(7, 8); (3, 5)] /\
  cut_segments 10 (ones 100) [(3, 5); (7, 8)] 0
  = cut_segments 10 (ones 100) [(7, 8); (3, 5)] 0.
Proof.
  assert (H1 : 0 <= 0) by (unfold Qle; cbn; lia).
  assert (H2 : Permutation [(3, 5); (7, 8)] [(7, 8); (3, 5)])
    by apply perm_swap.
  split; [exact H1|]. split; [exact H2|].
  apply (cut_segments_order_irrelevant 10 (ones 100) _ _ 0 H1 H2).
  intros t [<-|[<-|[]]]; vm_compute; discriminate.
Defined.

Lemma cut_segments_raises_past_end_witness :
  0 < 1 # 2 /\
  (len (ones 100) < to_sample 10 (41 # 4))%Z /\
  (2 <= to_sample 10 (41 # 4))%Z /\ (2 <= to_sample 10 (1 # 2))%Z /\
  cut_segments 10 (ones 100) [(41 # 4, 21 # 2)] (1 # 2)
  = Raise (ValueError "operands could not be broadcast together").
Proof.
  assert (H1 : 0 < 1 # 2) by reflexivity.
  assert (H2 : (len (ones 100) < to_sample 10 (41 # 4))%Z) by reflexivity.
  assert (H3 : (2 <= to_sample 10 (41 # 4))%Z) by (vm_compute; discriminate).
  assert (H4 : (2 <= to_sample 10 (1 # 2))%Z) by (vm_compute; discriminate).
  repeat (split; [assumption|]).
  exact (cut_segments_raises_past_end 10 (ones 100) (41 # 4) (21 # 2) (1 # 2)
           H1 H2 H3 H4).
Defined.

(** *** The samples next to the seam *)

Lemma mul_elementwise_nth (xs ys : list Q) (i : nat) :
  (i < length xs)%nat -> (i < length ys)%nat ->
  nth i (mul_elementwise xs ys) 0 = nth i xs 0 * nth i ys 0.
Proof.
  revert ys i. induction xs as [|x xs IH]; intros [|y ys] [|i] Hx Hy;
    cbn in *; try lia; [reflexivity|].
  apply IH; lia.
Qed.

Lemma slice_imul_in_range (a b : list Q) (lo hi : Z) :
  (0 <= lo <= hi)%Z -> (hi <= len a)%Z -> length b = Z.to_nat (hi - lo) ->
  slice_imul a lo hi b =
    Ok (firstn (Z.to_nat lo) a
        ++ mul_elementwise
             (firstn (Z.to_nat hi - Z.to_nat lo) (skipn (Z.to_nat lo) a)) b
        ++ skipn (Z.to_nat hi) a).
Proof.
  intros Hlo Hhi Hb. unfold slice_imul.
  rewrite slice_bounds_nonneg by (unfold len in *; lia).
  rewrite !Z.min_l, Z.max_r by lia.
  replace (length b =? Z.to_nat hi - Z.to_nat lo)%nat with true
    by (symmetry; apply Nat.eqb_eq; lia).
  reflexivity.
Qed.

(** What an in-place product over [a[lo:hi]] leaves at each index. *)
Lemma slice_imul_nth (a b a' : list Q) (lo hi : Z) (i : nat) :
  (0 <= lo <= hi)%Z -> (hi <= len a)%Z -> length b = Z.to_nat (hi - lo) ->
  slice_imul a lo hi b = Ok a' ->
  nth i a' 0 =
    if (Z.to_nat lo <=? i)%nat && (i <? Z.to_nat hi)%nat
    then nth i a 0 * nth (i - Z.to_nat lo) b 0
    else nth i a 0.
Proof.
  intros Hlo Hhi Hb H. rewrite slice_imul_in_range in H by assumption.
  injection H as <-. unfold len in *.
  set (l := Z.to_nat lo). set (h := Z.to_nat hi).
  assert (Hlh : (l <= h <= length a)%nat) by (unfold l, h; lia).
  assert (Hl : length (firstn l a) = l) by (rewrite length_firstn; lia).
  assert (Ht : length (firstn (h - l) (skipn l a)) = (h - l)%nat)
    by (rewrite length_firstn, length_skipn; lia).
  assert (Hm : length (mul_elementwise (firstn (h - l) (skipn l a)) b)
               = (h - l)%nat)
    by (rewrite mul_elementwise_length, Ht; unfold l, h; lia).
  destruct (Nat.leb_spec l i) as [Hli|Hli]; cbn [andb].
  - rewrite app_nth2 by lia. rewrite Hl.
    destruct (Nat.ltb_spec i h) as [Hih|Hih].
    + rewrite app_nth1 by lia.
      rewrite mul_elementwise_nth by (unfold l, h in *; lia).
      rewrite nth_firstn.
      destruct (Nat.ltb_spec (i - l) (h - l)); [|lia].
      rewrite nth_skipn. do 2 f_equal. lia.
    + rewrite app_nth2 by lia. rewrite Hm, nth_skipn. f_equal. lia.
  - rewrite app_nth1 by lia. rewrite nth_firstn.
    destruct (Nat.ltb_spec i l); [reflexivity|lia].
Qed.

(** A fade over two samples or more, within the array: the first sample
    of the span is multiplied by the curve's first gain, the last by its
    last gain, and the samples outside the span are left alone. *)
Lemma fade_ends (audio audio' : list Q) (lo hi : Z) (start stop : Q) :
  (fade_array <- linspace start stop (hi - lo) ;;
   slice_imul audio lo hi (slice fade_array 0 (hi - lo))) = Ok audio' ->
  (0 <= lo)%Z -> (lo + 2 <= hi)%Z -> (hi <= len audio)%Z ->
  nth (Z.to_nat lo) audio' 0 == nth (Z.to_nat lo) audio 0 * start /\
  nth (Z.to_nat hi - 1) audio' 0 == nth (Z.to_nat hi - 1) audio 0 * stop /\
  forall i, (i < Z.to_nat lo \/ Z.to_nat hi <= i)%nat ->
            nth i audio' 0 = nth i audio 0.
Proof.
  intros H Hlo Hspan Hhi.
  destruct (FadeCurve.linspace_long start stop (hi - lo) ltac:(lia))
    as (m & Em & Ec).
  rewrite Ec in H. cbn [bind] in H.
  set (curve := map _ _ ++ [stop]) in *.
  assert (Hlen : length curve = Z.to_nat (hi - lo)).
  { unfold curve. rewrite length_app, length_map, length_seq. cbn. lia. }
  rewrite slice_whole in H by exact Hlen.
  assert (Hnth : forall i, nth i audio' 0 =
            if (Z.to_nat lo <=? i)%nat && (i <? Z.to_nat hi)%nat
            then nth i audio 0 * nth (i - Z.to_nat lo) curve 0
            else nth i audio 0).
  { intros i. apply slice_imul_nth; [lia|assumption|assumption|exact H]. }
  split; [|split].
  - rewrite Hnth.
    destruct (Nat.leb_spec (Z.to_nat lo) (Z.to_nat lo)); [|lia].
    destruct (Nat.ltb_spec (Z.to_nat lo) (Z.to_nat hi)); [|lia].
    cbn [andb]. rewrite Nat.sub_diag.
    pose proof (FadeCurve.linspace_gain start stop m 0 ltac:(lia)) as G.
    unfold gain in G. fold curve in G. rewrite G.
    change (inject_Z (Z.of_nat 0)) with 0. field.
    apply FadeCurve.inject_nat_neq.
  - rewrite Hnth.
    destruct (Nat.leb_spec (Z.to_nat lo) (Z.to_nat hi - 1)); [|lia].
    destruct (Nat.ltb_spec (Z.to_nat hi - 1) (Z.to_nat hi)); [|lia].
    cbn [andb].
    replace (Z.to_nat hi - 1 - Z.to_nat lo)%nat with (S m) by lia.
    pose proof (FadeCurve.linspace_gain start stop m (S m) ltac:(lia)) as G.
    unfold gain in G. fold curve in G. rewrite G.
    field. apply FadeCurve.inject_nat_neq.
  - intros i Hi. rewrite Hnth.
    destruct (Nat.leb_spec (Z.to_nat lo) i), (Nat.ltb_spec i (Z.to_nat hi));
      cbn [andb]; try reflexivity; lia.
Qed.

Lemma fade_outside (c : bool) (audio audio' : list Q) (lo hi : Z)
    (start stop : Q) (i : nat) :
  (if c then
     fade_array <- linspace start stop (hi - lo) ;;
     slice_imul audio lo hi (slice fade_array 0 (hi - lo))
   else Ok audio) = Ok audio' ->
  (0 <= lo <= hi)%Z -> (hi <= len audio)%Z ->
  (i < Z.to_nat lo \/ Z.to_nat hi <= i)%nat ->
  nth i audio' 0 = nth i audio 0.
Proof.
  destruct c; [|now intros [= <-]].
  intros H Hlo Hhi Hi.
  destruct (linspace_ok start stop (hi - lo)) as (curve & Hc & Hl); [lia|].
  rewrite Hc in H. cbn [bind] in H. rewrite slice_whole in H by exact Hl.
  rewrite (slice_imul_nth audio curve audio' lo hi i Hlo Hhi Hl H).
  destruct (Nat.leb_spec (Z.to_nat lo) i), (Nat.ltb_spec i (Z.to_nat hi));
    cbn [andb]; try reflexivity; lia.
Qed.

(** The samples kept around a single range. *)
Lemma mask_select_range {A : Type} (a : list A) (s e : Z) :
  (0 <= s <= e)%Z -> (e <= len a)%Z ->
  mask_select a (slice_fill (repeat true (length a)) s e false)
  = firstn (Z.to_nat s) a ++ skipn (Z.to_nat e) a.
Proof.
  intros Hs He. unfold slice_fill, len in *. rewrite repeat_length.
  rewrite slice_bounds_nonneg by lia.
  rewrite !Z.min_l, Z.max_r by lia.
  set (lo := Z.to_nat s). set (hi := Z.to_nat e).
  assert (Hlohi : (lo <= hi <= length a)%nat) by (unfold lo, hi; lia).
  rewrite firstn_repeat_le, skipn_repeat_le by lia.
  rewrite (patch_decompose a lo hi) at 1 by lia.
  rewrite mask_select_app by (rewrite length_firstn, repeat_length; lia).
  rewrite mask_select_app
    by (rewrite length_firstn, length_skipn, repeat_length; lia).
  rewrite mask_select_false.
  replace lo with (length (firstn lo a)) at 2 by (rewrite length_firstn; lia).
  replace (length a - hi)%nat with (length (skipn hi a))
    by (rewrite length_skipn; lia).
  now rewrite !mask_select_true.
Qed.

(** X9. A single range cut with a fade of two samples or more leaves
    silence on both sides of the seam: the output is the samples before
    the range followed by the samples after it, as the caller's array
    holds them after the fades; the last sample before the seam is 0 when
    at least two samples precede the range, and the first sample after it
    is 0 when at least two samples follow the range. *)
Theorem cut_segments_seam_silent (sample_rate : Z) (audio : list Q)
    (t0 t1 smooth : Q) (audio' out : list Q) :
  0 < smooth -> (2 <= to_sample sample_rate smooth)%Z ->
  (fst (code_range sample_rate (len audio) (t0, t1))
   <= snd (code_range sample_rate (len audio) (t0, t1)))%Z ->
  cut_segments sample_rate audio [(t0, t1)] smooth = Ok (audio', out) ->
  out = firstn (Z.to_nat (fst (code_range sample_rate (len audio) (t0, t1))))
          audio'
        ++ skipn (Z.to_nat (snd (code_range sample_rate (len audio) (t0, t1))))
             audio' /\
  ((2 <= fst (code_range sample_rate (len audio) (t0, t1)))%Z ->
   nth (Z.to_nat (fst (code_range sample_rate (len audio) (t0, t1))) - 1)
     out 0 == 0) /\
  ((snd (code_range sample_rate (len audio) (t0, t1)) + 2 <= len audio)%Z ->
   nth (Z.to_nat (fst (code_range sample_rate (len audio) (t0, t1))))
     out 0 == 0).
Proof.
  intros Hsm Hf Hse H.
  unfold cut_segments in H.
  cbn [sorted fold_right insert_sorted cut_loop] in H.
  destruct (cut_step sample_rate smooth (audio, repeat true (length audio))
              (t0, t1)) as [[a1 m1]|] eqn:E; cbn [bind] in H; [|discriminate].
  injection H as <- <-.
  destruct (cut_step_frame _ _ _ _ _ _ _ E) as [Hl Hm].
  unfold code_range, to_sample in *. cbn [fst snd] in *.
  unfold to_sample in Hf.
  unfold cut_step in E.
  set (s := Z.max 0 (py_int (t0 * inject_Z sample_rate))) in *.
  set (e := Z.min (len audio) (py_int (t1 * inject_Z sample_rate))) in *.
  set (f := py_int (smooth * inject_Z sample_rate)) in *.
  assert (Hs0 : (0 <= s)%Z) by (unfold s; lia).
  assert (HeL : (e <= len audio)%Z) by (unfold e; lia).
  assert (Hlen1 : len a1 = len audio) by (unfold len; now rewrite Hl).
  match type of E with
  | bind ?fade_out _ = _ => destruct fade_out as [b1|] eqn:E1
  end; cbn [bind] in E; [|discriminate].
  match type of E with
  | bind ?fade_in _ = _ => destruct fade_in as [b2|] eqn:E2
  end; cbn [bind] in E; [|discriminate].
  injection E as Hb2 _. subst b2.
  apply Qltb_lt in Hsm.
  assert (Hlb1 : len b1 = len audio).
  { destruct (Qltb 0 smooth && (0 <? s)%Z); [|now injection E1 as <-].
    destruct (linspace 1 0 (s - Z.max 0 (s - f))); [|discriminate].
    cbn [bind] in E1. apply slice_imul_length in E1.
    unfold len. now rewrite E1. }
  rewrite Hlb1 in E2.
  assert (Hout : mask_select a1 m1
                 = firstn (Z.to_nat s) a1 ++ skipn (Z.to_nat e) a1).
  { rewrite Hm. replace (length audio) with (length a1) by exact Hl.
    apply mask_select_range; [lia|rewrite Hlen1; exact HeL]. }
  split; [exact Hout|]. rewrite Hout.
  assert (Hfirst : length (firstn (Z.to_nat s) a1) = Z.to_nat s).
  { rewrite length_firstn. unfold len in *. lia. }
  split.
  - intros Hs2.
    rewrite app_nth1 by lia. rewrite nth_firstn.
    destruct (Nat.ltb_spec (Z.to_nat s - 1) (Z.to_nat s)); [|lia].
    rewrite (fade_outside _ b1 a1 e (Z.min (len audio) (e + f)) 0 1 _ E2)
      by (try rewrite Hlb1; lia).
    rewrite Hsm in E1. destruct (Z.ltb_spec 0 s); [|lia]. cbn [andb] in E1.
    destruct (fade_ends audio b1 (Z.max 0 (s - f)) s 1 0 E1) as (_ & Hlast & _);
      [lia|lia|lia|].
    rewrite Hlast. apply Qmult_0_r.
  - intros He2.
    rewrite app_nth2 by lia. rewrite Hfirst, Nat.sub_diag, nth_skipn.
    rewrite Nat.add_0_r.
    rewrite Hsm in E2. destruct (Z.ltb_spec e (len audio)); [|lia].
    cbn [andb] in E2.
    destruct (fade_ends b1 a1 e (Z.min (len audio) (e + f)) 0 1 E2)
      as (Hfirst' & _ & _); [lia|lia|rewrite Hlb1; lia|].
    rewrite Hfirst'. apply Qmult_0_r.
Qed.

Lemma cut_segments_seam_silent_witness :
  exists audio' out,
    cut_segments 10 (ones 20) [(1, 3 # 2)] (1 # 2) = Ok (audio', out) /\
    nth 9 out 0 == 0 /\ nth 10 out 0 == 0.
Proof.
  destruct (cut_segments 10 (ones 20) [(1, 3 # 2)] (1 # 2))
    as [[audio' out]|] eqn:E; [|vm_compute in E; discriminate E].
  exists audio', out. split; [reflexivity|].
  assert (H1 : 0 < 1 # 2) by reflexivity.
  assert (H2 : (2 <= to_sample 10 (1 # 2))%Z) by (vm_compute; discriminate).
  assert (H3 : (fst (code_range 10 (len (ones 20)) (1%Q, 3 # 2))
                <= snd (code_range 10 (len (ones 20)) (1%Q, 3 # 2)))%Z)
    by (vm_compute; discriminate).
  destruct (cut_segments_seam_silent 10 (ones 20) 1 (3 # 2) (1 # 2) audio' out
              H1 H2 H3 E) as (_ & Hb & Ha).
  split.
  - apply Hb. vm_compute. discriminate.
  - apply Ha. vm_compute. discriminate.
Defined.

(** *** Length conservation, in seconds *)

Lemma py_int_inject_Z (z : Z) : py_int (inject_Z z) = z.
Proof. unfold py_int, inject_Z. cbn. apply Z.quot_1_r. Qed.

Lemma time_in_bounds (sample_rate : Z) (L : Z) (t : Q * Q) :
  (0 <= sample_rate)%Z ->
  fst t * inject_Z sample_rate <= inject_Z L -> 0 <= snd t ->
  in_bounds sample_rate L t.
Proof.
  intros Hsr H0 H1. split.
  - unfold to_sample. rewrite <- (py_int_inject_Z L). now apply py_int_mono.
  - now apply to_sample_nonneg.
Qed.

(** X1. Length conservation.  For a sample rate that is not negative and
    ranges whose start, in samples, is not past the end of the buffer and
    whose end is not negative, the cut returns, whatever the fade duration;
    the caller's array keeps its length and the output has the length of
    the input less the number of samples covered by the union of the
    ranges, each clamped to the buffer. *)
Theorem cut_segments_length_conservation (sample_rate : Z) (audio : list Q)
    (timestamps : list (Q * Q)) (smooth : Q) :
  (0 <= sample_rate)%Z ->
  (forall t, In t timestamps ->
     fst t * inject_Z sample_rate <= inject_Z (len audio) /\ 0 <= snd t) ->
  exists audio' out,
    cut_segments sample_rate audio timestamps smooth = Ok (audio', out) /\
    length audio' = length audio /\
    length out =
      (length audio
       - covered (length audio)
           (map (clamped_range sample_rate (len audio)) timestamps))%nat.
Proof.
  intros Hsr Hall. apply cut_segments_in_bounds; [exact Hsr|].
  apply Forall_forall. intros t Ht. destruct (Hall t Ht) as [H0 H1].
  now apply time_in_bounds.
Qed.

Lemma cut_segments_length_conservation_witness :
  (0 <= 10)%Z /\
  exists audio' out,
    cut_segments 10 (ones 100) [(-1 # 2, 5); (4, 6)] (1 # 2)
      = Ok (audio', out) /\
    length audio' = 100%nat /\ length out = 40%nat.
Proof.
  assert (H1 : (0 <= 10)%Z) by lia.
  split; [exact H1|].
  destruct (cut_segments_length_conservation 10 (ones 100)
              [(-1 # 2, 5); (4, 6)] (1 # 2) H1)
    as (audio' & out & Hcut & Hl & Hout).
  - intros t [<-|[<-|[]]]; split; vm_compute; discriminate.
  - exists audio', out. split; [exact Hcut|]. split; [exact Hl|exact Hout].
Defined.

(** *** A range before the start of the buffer *)

Lemma slice_fill_negative_end {A : Type} (a : list A) (s e : Z) (v : A) :
  (e < 0)%Z -> (0 <= e + len a)%Z ->
  slice_fill a s e v = slice_fill a s (e + len a) v.
Proof.
  intros He Hel. unfold slice_fill, slice_bounds.
  replace (norm_index (len a) (e + len a)) with (norm_index (len a) e);
    [reflexivity|].
  unfold norm_index.
  destruct (Z.ltb_spec e 0) as [_|]; [|lia].
  destruct (Z.ltb_spec (e + len a) 0) as [|_]; lia.
Qed.

(** X22. The end of a range is not raised to 0.  With fading off, a range
    that lies before the start of the buffer, its end converting to the
    negative index -k, is not ignored: the mask slice counts the end from
    the end of the buffer, and the cut returns only the last k samples. *)
Theorem cut_segments_negative_end_wraps (sample_rate : Z) (audio : list Q)
    (t0 t1 smooth : Q) :
  smooth <= 0 ->
  (to_sample sample_rate t0 <= 0)%Z ->
  (- len audio <= to_sample sample_rate t1 < 0)%Z ->
  cut_segments sample_rate audio [(t0, t1)] smooth =
    Ok (audio,
        skipn (Z.to_nat (len audio + to_sample sample_rate t1)) audio).
Proof.
  intros Hs H0 H1. unfold cut_segments.
  cbn [sorted fold_right insert_sorted cut_loop].
  rewrite (cut_step_no_fade sample_rate smooth audio _ (t0, t1) Hs).
  cbn [bind]. do 2 f_equal.
  unfold code_range. cbn [fst snd].
  rewrite Z.max_l by lia. rewrite Z.min_r by lia.
  assert (Hlen : len (repeat true (length audio)) = len audio)
    by (unfold len; now rewrite repeat_length).
  rewrite slice_fill_negative_end by (rewrite ?Hlen; lia).
  rewrite Hlen, mask_select_range by lia.
  cbn [Z.to_nat firstn app]. f_equal. lia.
Qed.

Lemma cut_segments_negative_end_wraps_witness :
  0 <= 0 /\ (to_sample 10 (-2 # 1) <= 0)%Z /\
  (- len (ones 100) <= to_sample 10 (-1 # 1) < 0)%Z /\
  cut_segments 10 (ones 100) [(-2 # 1, -1 # 1)] 0
  = Ok (ones 100, skipn 90 (ones 100)).
Proof.
  assert (H1 : 0 <= 0) by (unfold Qle; cbn; lia).
  assert (H2 : (to_sample 10 (-2 # 1) <= 0)%Z) by (vm_compute; discriminate).
  assert (H3 : (- len (ones 100) <= to_sample 10 (-1 # 1) < 0)%Z)
    by (split; [vm_compute; discriminate|reflexivity]).
  split; [exact H1|]. split; [exact H2|]. split; [exact H3|].
  exact (cut_segments_negative_end_wraps 10 (ones 100) (-2 # 1) (-1 # 1) 0
           H1 H2 H3).
Defined.

End EngineProperties.

(** ** Further properties of the normalizer and of the pipeline *)
Module PipelineProperties.

Import Normalizer ExcisionEngine.

Lemma normalize_audio_total (audio : list Q) :
  audio <> [] ->
  exists out, normalize_audio audio = Ok out /\ length out = length audio.
Proof.
  intros Hne.
  destruct (np_max_nonempty (np_abs audio)) as [m Hm].
  { destruct audio; [contradiction|discriminate]. }
  unfold normalize_audio. rewrite Hm. cbn [bind].
  destruct (Qltb 0 m); eexists; (split; [reflexivity|]);
    [apply length_map|reflexivity].
Qed.

(** The peak of a buffer divided by its peak. *)
Lemma scaled_peak (audio : list Q) (m : Q) :
  peak_is audio m -> 0 < m ->
  exists m', peak_is (map (fun x => x / m) audio) m' /\ m' == 1.
Proof.
  unfold peak_is. intros Hpeak Hpos.
  destruct (np_max_spec _ _ Hpeak) as [Hin Hmax].
  unfold np_abs in Hin, Hmax. apply in_map_iff in Hin.
  destruct Hin as (x0 & Hx0 & Hx0in).
  destruct (np_max_nonempty (np_abs (map (fun x => x / m) audio)))
    as [m' Hm'].
  { destruct audio; [contradiction|discriminate]. }
  exists m'. split; [exact Hm'|].
  destruct (np_max_spec _ _ Hm') as [Hin' Hmax'].
  unfold np_abs in Hin', Hmax'. apply Qle_antisym.
  - apply in_map_iff in Hin'. destruct Hin' as (y & <- & Hy).
    apply in_map_iff in Hy. destruct Hy as (x & <- & Hx).
    rewrite Qabs_div_pos by exact Hpos.
    apply Qle_shift_div_r; [exact Hpos|]. rewrite Qmult_1_l.
    apply Hmax. now apply in_map.
  - assert (H1 : Qabs (x0 / m) <= m').
    { apply Hmax'. apply in_map. apply (in_map (fun x => x / m)). exact Hx0in. }
    rewrite Qabs_div_pos, Hx0 in H1 by exact Hpos.
    assert (E : m / m == 1) by (field; lra).
    rewrite E in H1. exact H1.
Qed.

(** X10. Normalizing is idempotent: normalizing the output of the
    normalizer returns it again, sample for sample. *)
Theorem normalize_audio_idempotent (audio out : list Q) :
  normalize_audio audio = Ok out ->
  exists out', normalize_audio out = Ok out' /\ Forall2 Qeq out' out.
Proof.
  unfold normalize_audio at 1.
  destruct (np_max (np_abs audio)) as [m|] eqn:Hm; cbn [bind]; [|discriminate].
  destruct (Qltb 0 m) eqn:Hpos.
  - intros [= <-]. apply Qltb_lt in Hpos.
    destruct (scaled_peak audio m Hm Hpos) as (m' & Hm' & Hone).
    unfold peak_is in Hm'. unfold normalize_audio. rewrite Hm'. cbn [bind].
    assert (Hpos' : Qltb 0 m' = true) by (apply Qltb_lt; lra).
    rewrite Hpos'. eexists. split; [reflexivity|].
    generalize (map (fun x => x / m) audio) as ys.
    induction ys as [|y ys IH]; cbn [map]; constructor; [|exact IH].
    rewrite Hone. field.
  - intros [= <-]. exists audio. split.
    + unfold normalize_audio. rewrite Hm. cbn [bind]. now rewrite Hpos.
    + clear. induction audio; constructor; [reflexivity|assumption].
Qed.

Lemma normalize_audio_idempotent_witness :
  exists out out',
    normalize_audio [1 # 2; -2 # 1] = Ok out /\
    normalize_audio out = Ok out' /\ Forall2 Qeq out' out.
Proof.
  destruct (normalize_audio [1 # 2; -2 # 1]) as [out|] eqn:E;
    [|vm_compute in E; discriminate E].
  destruct (normalize_audio_idempotent _ _ E) as (out' & H1 & H2).
  exists out, out'. split; [reflexivity|]. split; assumption.
Defined.

Lemma normalize_audio_silent_witness :
  [0; 0 # 5; 0] <> [] /\
  (forall x, In x [0; 0 # 5; 0] -> x == 0) /\
  normalize_audio [0; 0 # 5; 0] = Ok [0; 0 # 5; 0].
Proof.
  assert (H1 : [0; 0 # 5; 0] <> []) by discriminate.
  assert (H2 : forall x, In x [0; 0 # 5; 0] -> x == 0).
  { intros x [<-|[<-|[<-|[]]]]; reflexivity. }
  split; [exact H1|]. split; [exact H2|].
  exact (normalize_audio_silent _ H1 H2).
Defined.

(** X12. On a buffer that is not empty the normalizer returns a buffer of
    the same length whose samples all lie between -1 and 1. *)
Theorem normalize_audio_bounded (audio : list Q) :
  audio <> [] ->
  exists out,
    normalize_audio audio = Ok out /\ length out = length audio /\
    forall y, In y out -> -(1) <= y <= 1.
Proof.
  intros Hne.
  destruct (np_max_nonempty (np_abs audio)) as [m Hm].
  { destruct audio; [contradiction|discriminate]. }
  destruct (np_max_spec _ _ Hm) as [_ Hmax]. unfold np_abs in Hmax.
  unfold normalize_audio. rewrite Hm. cbn [bind].
  destruct (Qltb 0 m) eqn:Hpos.
  - apply Qltb_lt in Hpos. eexists. split; [reflexivity|].
    split; [apply length_map|].
    intros y Hy. apply in_map_iff in Hy. destruct Hy as (x & <- & Hx).
    apply Qabs_Qle_condition. rewrite Qabs_div_pos by exact Hpos.
    apply Qle_shift_div_r; [exact Hpos|]. rewrite Qmult_1_l.
    apply Hmax. now apply in_map.
  - apply Qltb_ge in Hpos. exists audio. split; [reflexivity|].
    split; [reflexivity|].
    intros y Hy. apply Qabs_Qle_condition.
    apply Qle_trans with m; [|lra].
    apply Hmax. now apply in_map.
Qed.

Lemma normalize_audio_bounded_witness :
  [3; -5; 1 # 2] <> [] /\
  exists out, normalize_audio [3; -5; 1 # 2] = Ok out /\
    forall y, In y out -> -(1) <= y <= 1.
Proof.
  assert (H : [3; -5; 1 # 2] <> []) by discriminate.
  split; [exact H|].
  destruct (normalize_audio_bounded _ H) as (out & H1 & _ & H2).
  exists out. split; assumption.
Defined.

(** X7. The pipeline cannot remove everything: when the ranges are in
    bounds and cover the whole buffer, the cut returns the empty buffer
    and the normalization that follows raises ValueError. *)
Theorem process_audio_whole_buffer_raises (sample_rate : Z) (audio : list Q)
    (timestamps : list (Q * Q)) (smooth : Q) :
  (0 <= sample_rate)%Z ->
  Forall (in_bounds sample_rate (len audio)) timestamps ->
  covered (length audio)
    (map (clamped_range sample_rate (len audio)) timestamps) = length audio ->
  process_audio sample_rate audio timestamps true smooth
  = Raise (ValueError "zero-size array to reduction operation maximum which has no identity").
Proof.
  intros Hsr Hall Hcov.
  destruct (cut_segments_in_bounds sample_rate audio timestamps smooth Hsr Hall)
    as (audio' & out & Hcut & _ & Hout).
  unfold process_audio. rewrite Hcut. cbn [bind snd].
  rewrite Hcov, Nat.sub_diag in Hout.
  destruct out; [reflexivity|discriminate].
Qed.

Lemma process_audio_whole_buffer_raises_witness :
  (0 <= 10)%Z /\
  Forall (in_bounds 10 (len (ones 100))) [(0, 4); (4, 12)] /\
  process_audio 10 (ones 100) [(0, 4); (4, 12)] true (1 # 10)
  = Raise (ValueError "zero-size array to reduction operation maximum which has no identity").
Proof.
  assert (H1 : (0 <= 10)%Z) by lia.
  assert (H2 : Forall (in_bounds 10 (len (ones 100))) [(0, 4); (4, 12)]).
  { repeat constructor; vm_compute; discriminate. }
  split; [exact H1|]. split; [exact H2|].
  apply (process_audio_whole_buffer_raises 10 (ones 100) _ (1 # 10) H1 H2).
  vm_compute. reflexivity.
Defined.

(** X8. When the ranges are in bounds and leave at least one sample, the
    pipeline returns, normalized or not, a buffer with the length of the
    input less the covered samples. *)
Theorem process_audio_length (sample_rate : Z) (audio : list Q)
    (timestamps : list (Q * Q)) (normalize : bool) (smooth : Q) :
  (0 <= sample_rate)%Z ->
  Forall (in_bounds sample_rate (len audio)) timestamps ->
  (covered (length audio)
     (map (clamped_range sample_rate (len audio)) timestamps)
   < length audio)%nat ->
  exists out,
    process_audio sample_rate audio timestamps normalize smooth = Ok out /\
    length out =
      (length audio
       - covered (length audio)
           (map (clamped_range sample_rate (len audio)) timestamps))%nat.
Proof.
  intros Hsr Hall Hcov.
  destruct (cut_segments_in_bounds sample_rate audio timestamps smooth Hsr Hall)
    as (audio' & out & Hcut & _ & Hout).
  unfold process_audio. rewrite Hcut. cbn [bind snd].
  destruct normalize.
  - destruct (normalize_audio_total out) as (res & Hres & Hl).
    { intros ->. cbn in Hout. lia. }
    exists res. split; [exact Hres|congruence].
  - exists out. split; [reflexivity|exact Hout].
Qed.

Lemma process_audio_length_witness :
  (0 <= 10)%Z /\
  Forall (in_bounds 10 (len (ones 100))) [(3, 5)] /\
  exists out,
    process_audio 10 (ones 100) [(3, 5)] true (1 # 10) = Ok out /\
    length out = 80%nat.
Proof.
  assert (H1 : (0 <= 10)%Z) by lia.
  assert (H2 : Forall (in_bounds 10 (len (ones 100))) [(3, 5)]).
  { repeat constructor; vm_compute; discriminate. }
  split; [exact H1|]. split; [exact H2|].
  destruct (process_audio_length 10 (ones 100) [(3, 5)] true (1 # 10) H1 H2)
    as (out & Hp & Hl).
  - vm_compute. lia.
  - exists out. split; [exact Hp|exact Hl].
Defined.

End PipelineProperties.

(** ** Further properties of the interviewer selector *)
Module SelectorProperties.

Import InterviewerSelector.

Section Selector.

Variable duration : Segment -> Q.

Lemma hd_of_short (l : list string) (x d : string) :
  In x l -> (length l <= 1)%nat -> hd d l = x.
Proof.
  destruct l as [|y [|z l]]; cbn; intros Hin Hl.
  - destruct Hin.
  - destruct Hin as [->|[]]. reflexivity.
  - lia.
Qed.

(** A label the selector returns is the label of a segment. *)
Lemma identify_returns_label (segments : list (Segment * string))
    (method s : string) :
  segments <> [] ->
  identify_interviewer duration segments method = Ok s ->
  In s (labels segments).
Proof.
  intros Hne H. destruct segments as [|p rest] eqn:Eseg; [contradiction|].
  rewrite <- Eseg in *. unfold identify_interviewer in H. rewrite Eseg in H at 1.
  assert (Hp : In (snd p) (labels segments)) by (rewrite Eseg; now left).
  destruct (length (nodup string_dec (map snd segments)) <=? 1)%nat eqn:Eone.
  - apply Nat.leb_le in Eone. injection H as <-.
    rewrite (hd_of_short _ (snd p) ""%string); [exact Hp| |exact Eone].
    now apply nodup_In.
  - destruct (String.eqb method "first"); [now injection H as <-|].
    destruct (String.eqb method "duration").
    + pose proof (speaker_duration_tracks duration segments) as [Hkeys _].
      destruct (fold_left (add_segment duration) segments []) as [|x xs] eqn:Ed;
        [discriminate|].
      destruct (min_by_value_first x xs) as (b & pre & post & Hmin & Hsplit & _).
      rewrite Hmin in H. cbn [bind] in H. injection H as <-.
      apply first_seen_In. rewrite <- Hkeys, Hsplit, map_app.
      apply in_or_app. right. now left.
    + destruct (String.eqb method "manual"); discriminate.
Qed.

Lemma ranges_of_nonempty (segments : list (Segment * string)) (s : string) :
  In s (labels segments) -> ranges_of segments s <> [].
Proof.
  unfold labels, ranges_of. intros Hin. apply in_map_iff in Hin.
  destruct Hin as (p & Hp & Hin).
  assert (Hf : In p (filter (fun p => String.eqb (snd p) s) segments)).
  { apply filter_In. split; [exact Hin|]. now apply String.eqb_eq. }
  destruct (filter (fun p => String.eqb (snd p) s) segments);
    [destruct Hf|discriminate].
Qed.

Lemma first_method_first_label (p : Segment * string)
    (rest : list (Segment * string)) :
  identify_interviewer duration (p :: rest) "first" = Ok (snd p).
Proof.
  unfold identify_interviewer.
  destruct (length (nodup string_dec (map snd (p :: rest))) <=? 1)%nat eqn:Eone;
    [|reflexivity].
  apply Nat.leb_le in Eone. f_equal.
  apply hd_of_short; [|exact Eone]. apply nodup_In. now left.
Qed.

(** X13. Under the ["first"] method the selector returns the speaker of the
    first segment, for every segment list that is not empty, one speaker or
    several, and the timestamps to remove then include the range of that
    first segment. *)
Theorem first_policy_first_speaker (p : Segment * string)
    (rest : list (Segment * string)) :
  identify_interviewer duration (p :: rest) "first" = Ok (snd p) /\
  exists timestamps,
    get_speaker_timestamps duration (p :: rest) None "first" = Ok timestamps /\
    hd_error timestamps = Some (start (fst p), end_ (fst p)).
Proof.
  pose proof (first_method_first_label p rest) as Hid.
  split; [exact Hid|].
  unfold get_speaker_timestamps. rewrite Hid. cbn [bind].
  eexists. split; [reflexivity|].
  unfold get_speaker_segments. cbn [filter].
  now rewrite String.eqb_refl.
Qed.

(** X14. Whenever the timestamps to remove are computed for a segment list
    that is not empty, with no target speaker given, they are the ranges of
    a speaker who labels a segment of the list, and so there is at least one
    range to remove. *)
Theorem timestamps_of_a_present_speaker (segments : list (Segment * string))
    (method : string) (timestamps : list (Q * Q)) :
  segments <> [] ->
  get_speaker_timestamps duration segments None method = Ok timestamps ->
  exists s,
    identify_interviewer duration segments method = Ok s /\
    In s (labels segments) /\
    timestamps = ranges_of segments s /\ timestamps <> [].
Proof.
  intros Hne H. unfold get_speaker_timestamps in H.
  destruct (identify_interviewer duration segments method) as [s|] eqn:Eid;
    cbn [bind] in H; [|discriminate].
  injection H as <-. exists s.
  pose proof (identify_returns_label segments method s Hne Eid) as Hin.
  split; [reflexivity|]. split; [exact Hin|].
  assert (E : map (fun seg => (start seg, end_ seg))
                (get_speaker_segments segments s) = ranges_of segments s).
  { unfold get_speaker_segments, ranges_of. now rewrite map_map. }
  rewrite E. split; [reflexivity|now apply ranges_of_nonempty].
Qed.

(** X15. A segment list with a single speaker has every one of its segments
    marked for removal, whatever the method: the timestamps are the ranges
    of all the segments. *)
Theorem single_speaker_removes_everything (segments : list (Segment * string))
    (method s : string) :
  segments <> [] ->
  (forall x, In x (labels segments) -> x = s) ->
  get_speaker_timestamps duration segments None method
  = Ok (map (fun p => (start (fst p), end_ (fst p))) segments).
Proof.
  intros Hne Hall.
  assert (Hid : identify_interviewer duration segments method = Ok s).
  { destruct segments as [|p rest] eqn:E; [contradiction|].
    unfold identify_interviewer.
    rewrite (nodup_single (map snd (p :: rest)) s); [reflexivity| |exact Hall].
    discriminate. }
  unfold get_speaker_timestamps. rewrite Hid. cbn [bind].
  unfold get_speaker_segments. rewrite map_map. f_equal.
  f_equal. clear Hid Hne. induction segments as [|p rest IH]; [reflexivity|].
  cbn [filter].
  assert (Hp : snd p = s) by (apply Hall; now left).
  apply String.eqb_eq in Hp. rewrite Hp. f_equal.
  apply IH. intros x Hx. apply Hall. now right.
Qed.

(** X16. With two speakers or more the selector returns a speaker exactly
    when the method is ["first"] or ["duration"]; every other method,
    ["manual"] included, raises. *)
Theorem selector_answers_two_methods (segments : list (Segment * string))
    (method : string) :
  two_speakers segments ->
  ((exists s, identify_interviewer duration segments method = Ok s) <->
   (method = "first"%string \/ method = "duration"%string)).
Proof.
  intros Htwo. pose proof (two_speakers_many segments Htwo) as Hmany.
  split.
  - intros [s H]. destruct segments as [|p rest] eqn:E.
    { destruct Htwo as (a & _ & _ & [] & _). }
    unfold identify_interviewer in H. rewrite Hmany in H.
    destruct (String.eqb_spec method "first"); [now left|].
    destruct (String.eqb_spec method "duration"); [now right|].
    destruct (String.eqb method "manual"); discriminate.
  - intros [->| ->].
    + destruct segments as [|p rest].
      { destruct Htwo as (a & _ & _ & [] & _). }
      exists (snd p). apply first_method_first_label.
    + destruct (duration_selection duration segments Htwo) as (s & _ & _ & H & _).
      now exists s.
Qed.

(** X17. A target speaker given by the caller is taken as it is, the method
    not being looked at; when no segment carries that label nothing is
    marked for removal, and no error is raised. *)
Theorem absent_target_removes_nothing (segments : list (Segment * string))
    (target method : string) :
  ~ In target (labels segments) ->
  get_speaker_timestamps duration segments (Some target) method = Ok [].
Proof.
  intros Hnin. unfold get_speaker_timestamps. cbn [bind].
  unfold get_speaker_segments.
  replace (filter (fun p => String.eqb (snd p) target) segments)
    with (@nil (Segment * string)); [reflexivity|].
  symmetry. induction segments as [|p rest IH]; [reflexivity|].
  cbn [filter]. destruct (String.eqb_spec (snd p) target) as [E|_].
  - exfalso. apply Hnin. left. exact E.
  - apply IH. intros H. apply Hnin. now right.
Qed.

End Selector.

End SelectorProperties.

Module SelectorWitnesses.

Import SelectorProperties.

Lemma timestamps_of_a_present_speaker_witness :
  scenario3 <> [] /\
  get_speaker_timestamps pyannote_duration scenario3 None "duration"
    = Ok [(10, 12)] /\
  exists s,
    identify_interviewer pyannote_duration scenario3 "duration" = Ok s /\
    In s (labels scenario3).
Proof.
  assert (H1 : scenario3 <> []) by discriminate.
  assert (H2 : get_speaker_timestamps pyannote_duration scenario3 None "duration"
               = Ok [(10, 12)]) by reflexivity.
  split; [exact H1|]. split; [exact H2|].
  destruct (timestamps_of_a_present_speaker pyannote_duration scenario3
              "duration" _ H1 H2) as (s & Hid & Hin & _).
  exists s. split; assumption.
Defined.

Lemma single_speaker_removes_everything_witness :
  [(mkSegment 0 10, "A"%string); (mkSegment 12 20, "A"%string)] <> [] /\
  get_speaker_timestamps pyannote_duration
    [(mkSegment 0 10, "A"%string); (mkSegment 12 20, "A"%string)] None "duration"
  = Ok [(0, 10); (12, 20)].
Proof.
  assert (H1 : [(mkSegment 0 10, "A"%string); (mkSegment 12 20, "A"%string)]
               <> []) by discriminate.
  split; [exact H1|].
  apply (single_speaker_removes_everything pyannote_duration _ "duration" "A" H1).
  intros x [<-|[<-|[]]]; reflexivity.
Defined.

Lemma selector_answers_two_methods_witness :
  two_speakers scenario3 /\
  ((exists s, identify_interviewer pyannote_duration scenario3 "manual" = Ok s)
   <-> ("manual" = "first" \/ "manual" = "duration")%string).
Proof.
  assert (H : two_speakers scenario3).
  { exists "A"%string, "B"%string. split; [discriminate|].
    split; cbn; tauto. }
  split; [exact H|].
  exact (selector_answers_two_methods pyannote_duration scenario3 "manual" H).
Defined.

Lemma absent_target_removes_nothing_witness :
  ~ In "SPEAKER_09"%string (labels scenario3) /\
  get_speaker_timestamps pyannote_duration scenario3 (Some "SPEAKER_09"%string)
    "bogus" = Ok [].
Proof.
  assert (H : ~ In "SPEAKER_09"%string (labels scenario3)).
  { cbn. intros [H|[H|[H|[]]]]; discriminate H. }
  split; [exact H|].
  exact (absent_target_removes_nothing pyannote_duration scenario3
           "SPEAKER_09" "bogus" H).
Defined.

End SelectorWitnesses.

(** ** Titles and file names *)
Module TitleProperties.

Section Unicode.

Variable isalnum : N -> bool.
Variable isspace : N -> bool.

Lemma lstrip_In (s : str) (c : N) : In c (lstrip isspace s) -> In c s.
Proof.
  induction s as [|x s IH]; cbn [lstrip]; [tauto|].
  destruct (isspace x); [intros H; right; now apply IH|tauto].
Qed.

Lemma strip_In (s : str) (c : N) : In c (strip isspace s) -> In c s.
Proof.
  unfold strip, rstrip. intros H.
  apply in_rev, lstrip_In, in_rev in H. now apply lstrip_In.
Qed.

Lemma lstrip_length (s : str) : (length (lstrip isspace s) <= length s)%nat.
Proof.
  induction s as [|x s IH]; cbn [lstrip]; [lia|].
  destruct (isspace x); cbn; lia.
Qed.

Lemma lstrip_clean (s : str) :
  (forall c, In c s -> isspace c = false) -> lstrip isspace s = s.
Proof.
  destruct s as [|x s]; [reflexivity|]. intros H. cbn [lstrip].
  now rewrite (H x (or_introl eq_refl)).
Qed.

Lemma strip_clean (s : str) :
  (forall c, In c s -> isspace c = false) -> strip isspace s = s.
Proof.
  intros H. unfold strip, rstrip. rewrite (lstrip_clean s H).
  rewrite lstrip_clean; [apply rev_involutive|].
  intros c Hc. apply H. now apply in_rev.
Qed.

(** What every character of a file name satisfies. *)
Lemma safe_title_char (title : str) (c : N) :
  In c (safe_title isalnum isspace title) ->
  (isalnum c = true \/ c = dash \/ c = underscore) /\ c <> space.
Proof.
  unfold safe_title, replace_space. intros H.
  apply in_map_iff in H. destruct H as (c0 & Hc & Hin).
  apply strip_In in Hin. unfold keep_safe in Hin.
  apply filter_In in Hin. destruct Hin as [_ Hkeep].
  subst c. destruct (N.eqb_spec c0 space) as [E|Hne].
  - split; [right; now right|discriminate].
  - split; [|exact Hne].
    apply orb_true_iff in Hkeep. destruct Hkeep as [Hk|Hk]; [now left|].
    apply orb_true_iff in Hk. destruct Hk as [Hk|Hk].
    + apply orb_true_iff in Hk. destruct Hk as [Hk|Hk].
      * discriminate Hk.
      * apply N.eqb_eq in Hk. right. now left.
    + apply N.eqb_eq in Hk. right. now right.
Qed.

(** X18. A file name made from a title holds only characters that are
    alphanumeric, '-' or '_': no space and nothing else is left, and the
    name is never longer than the title. *)
Theorem safe_title_characters (title : str) :
  (forall c, In c (safe_title isalnum isspace title) ->
     (isalnum c = true \/ c = dash \/ c = underscore) /\ c <> space) /\
  (length (safe_title isalnum isspace title) <= length title)%nat.
Proof.
  split; [intros c; apply safe_title_char|].
  unfold safe_title, replace_space, strip, rstrip.
  rewrite length_map, length_rev.
  pose proof (lstrip_length (rev (lstrip isspace (keep_safe isalnum title)))).
  rewrite length_rev in H.
  pose proof (lstrip_length (keep_safe isalnum title)).
  pose proof (filter_length_le
    (fun c => isalnum c || (N.eqb c space || N.eqb c dash || N.eqb c underscore))
    title).
  unfold keep_safe in *. lia.
Qed.

(** X19. Making a file name is idempotent: a name made from a title is
    left as it is when the two lines are run on it again.  What is needed
    of the Unicode tables is that no alphanumeric character, nor '-' nor
    '_', is white space. *)
Theorem safe_title_idempotent (title : str) :
  (forall c, isalnum c = true -> isspace c = false) ->
  isspace dash = false -> isspace underscore = false ->
  safe_title isalnum isspace (safe_title isalnum isspace title)
  = safe_title isalnum isspace title.
Proof.
  intros Halnum Hdash Hunder.
  set (name := safe_title isalnum isspace title).
  assert (Hchar : forall c, In c name ->
            (isalnum c = true \/ c = dash \/ c = underscore) /\ c <> space)
    by (intros c; apply safe_title_char).
  assert (Hkeep : keep_safe isalnum name = name).
  { unfold keep_safe. apply forallb_filter_id. apply forallb_forall.
    intros c Hc. destruct (Hchar c Hc) as [[H|[->| ->]] _].
    - now rewrite H.
    - apply orb_true_r.
    - apply orb_true_r. }
  assert (Hstrip : strip isspace name = name).
  { apply strip_clean. intros c Hc.
    destruct (Hchar c Hc) as [[H|[->| ->]] _]; auto. }
  unfold safe_title at 1. rewrite Hkeep, Hstrip.
  unfold replace_space. rewrite <- (map_id name) at 2.
  apply map_ext_in. intros c Hc. destruct (Hchar c Hc) as [_ Hne].
  destruct (N.eqb_spec c space); [contradiction|reflexivity].
Qed.

End Unicode.

Lemma ascii_alnum_not_space (c : N) :
  ascii_isalnum c = true -> ascii_isspace c = false.
Proof.
  unfold ascii_isalnum, ascii_isspace. intros H.
  apply not_true_iff_false. intros Hs.
  rewrite !orb_true_iff, !andb_true_iff, !N.leb_le in H.
  rewrite !orb_true_iff, !andb_true_iff, !N.leb_le in Hs. lia.
Qed.

Lemma safe_title_idempotent_witness :
  (forall c, ascii_isalnum c = true -> ascii_isspace c = false) /\
  ascii_isspace dash = false /\ ascii_isspace underscore = false /\
  safe_title ascii_isalnum ascii_isspace [32; 65; 32; 47; 98; 45; 49; 32]%N
    = [65; 95; 98; 45; 49]%N /\
  safe_title ascii_isalnum ascii_isspace
    (safe_title ascii_isalnum ascii_isspace [32; 65; 32; 47; 98; 45; 49; 32]%N)
  = safe_title ascii_isalnum ascii_isspace [32; 65; 32; 47; 98; 45; 49; 32]%N.
Proof.
  split; [exact ascii_alnum_not_space|].
  split; [reflexivity|]. split; [reflexivity|]. split; [reflexivity|].
  exact (safe_title_idempotent ascii_isalnum ascii_isspace _
           ascii_alnum_not_space eq_refl eq_refl).
Defined.

(** X20. The description reported for a video is the first 500 characters
    of the video's description: never longer than 500, the whole
    description when that has at most 500 characters, and empty when the
    video has none. *)
Theorem description_field_prefix (description : option str) :
  (length (description_field description) <= 500)%nat /\
  (forall d, description = Some d ->
     description_field description = firstn 500 d /\
     ((length d <= 500)%nat -> description_field description = d)) /\
  description_field None = [].
Proof.
  assert (Hslice : forall d : str, description_field (Some d) = firstn 500 d).
  { intros [|c d]; [reflexivity|]. unfold description_field, slice.
    rewrite slice_bounds_nonneg by (unfold len; lia).
    unfold len.
    replace (Z.to_nat (Z.min 0 (Z.of_nat (length (c :: d))))) with O by lia.
    cbn [skipn]. rewrite Nat.sub_0_r.
    set (n := length (c :: d)).
    replace (Z.to_nat (Z.max (Z.min 0 (Z.of_nat n)) (Z.min 500 (Z.of_nat n))))
      with (Nat.min 500 n) by lia.
    destruct (Nat.le_ge_cases 500 n) as [H|H].
    - now rewrite Nat.min_l.
    - rewrite Nat.min_r by exact H.
      now rewrite !firstn_all2 by (fold n; lia). }
  split; [|split; [|reflexivity]].
  - destruct description as [d|]; [|cbn; lia].
    rewrite Hslice, length_firstn. lia.
  - intros d ->. split; [apply Hslice|].
    intros Hd. rewrite Hslice. now apply firstn_all2.
Qed.

End TitleProperties.

(** ** The progress line *)
Module ProgressProperties.

Lemma string_length_app (s1 s2 : string) :
  String.length (s1 ++ s2) = (String.length s1 + String.length s2)%nat.
Proof. induction s1 as [|c s1 IH]; cbn; [reflexivity|now rewrite IH]. Qed.

Lemma str_times_length (c : Ascii.ascii) (n : Z) :
  String.length (str_times (String c EmptyString) n) = Z.to_nat n.
Proof.
  unfold str_times. set (s := String c EmptyString).
  induction (Z.to_nat n) as [|k IH]; [reflexivity|].
  destruct k as [|k]; [reflexivity|].
  change (String.concat "" (repeat s (S (S k))))
    with (s ++ "" ++ String.concat "" (repeat s (S k)))%string.
  rewrite !string_length_app, IH. reflexivity.
Qed.

Lemma after_counters (n : nat) :
  elapsed (after n) = (5 * Z.of_nat n)%Z /\
  dots (after n) = (Z.of_nat n mod 4)%Z.
Proof.
  induction n as [|n [IHe IHd]]; [split; reflexivity|].
  cbn [after tick elapsed dots]. rewrite IHe, IHd. split; [lia|].
  rewrite Z.add_mod_idemp_l by lia. f_equal. lia.
Qed.

(** X21. The progress line keeps its shape: after any number of turns the
    seconds elapsed are five times the turns, the dot count is the turns
    modulo 4, the dots and their padding fill exactly three characters,
    and for a positive estimate the percentage shown lies between 0 and
    100. *)
Theorem progress_line_shape (n : nat) (est_time : Q) :
  0 < est_time ->
  elapsed (after n) = (5 * Z.of_nat n)%Z /\
  dots (after n) = (Z.of_nat n mod 4)%Z /\
  String.length (dot_str (after n)) = 3%nat /\
  (0 <= progress_pct (after n) est_time <= 100)%Z.
Proof.
  intros Hest. destruct (after_counters n) as [He Hd].
  split; [exact He|]. split; [exact Hd|].
  assert (Hrange : (0 <= dots (after n) < 4)%Z)
    by (rewrite Hd; apply Z.mod_pos_bound; lia).
  split.
  - unfold dot_str. rewrite string_length_app, !str_times_length. lia.
  - unfold progress_pct. split; [|lia].
    apply Z.min_glb; [lia|]. apply py_int_nonneg.
    apply Qmult_le_0_compat; [|unfold Qle; cbn; lia].
    unfold Qdiv. apply Qmult_le_0_compat.
    + rewrite He. replace 0 with (inject_Z 0) by reflexivity.
      rewrite <- Zle_Qle. lia.
    + apply Qlt_le_weak, Qinv_lt_0_compat, Hest.
Qed.

Lemma progress_line_shape_witness :
  0 < 120 /\
  dot_str (after 7) = "..."%string /\
  progress_pct (after 7) 120 = 29%Z /\
  String.length (dot_str (after 7)) = 3%nat.
Proof.
  assert (H : 0 < 120) by reflexivity.
  split; [exact H|].
  destruct (progress_line_shape 7 120 H) as (_ & _ & Hl & _).
  split; [|split; [reflexivity|exact Hl]].
  vm_compute. reflexivity.
Defined.

End ProgressProperties.

(** ** The fade curves, as the cut applies them *)
Module FadeInCode.

Import ExcisionEngine EngineProperties.

(** One conditional fade of [cut_step] over [audio[lo:hi]], a span within
    the array that is empty when the condition is false: the curve it
    draws and what it leaves at each index. *)
Lemma conditional_fade (c : bool) (audio : list Q) (lo hi : Z)
    (start stop : Q) :
  (0 <= lo <= hi)%Z -> (hi <= len audio)%Z -> (c = false -> lo = hi) ->
  exists curve audio',
    linspace start stop (hi - lo) = Ok curve /\
    length curve = Z.to_nat (hi - lo) /\
    (if c then
       fade_array <- linspace start stop (hi - lo) ;;
       slice_imul audio lo hi (slice fade_array 0 (hi - lo))
     else Ok audio) = Ok audio' /\
    length audio' = length audio /\
    forall i,
      nth i audio' 0 =
        if (Z.to_nat lo <=? i)%nat && (i <? Z.to_nat hi)%nat
        then nth i audio 0 * gain curve (i - Z.to_nat lo)
        else nth i audio 0.
Proof.
  intros Hlo Hhi Hc.
  destruct (linspace_ok start stop (hi - lo)) as (curve & Hcurve & Hl); [lia|].
  exists curve. destruct c.
  - rewrite Hcurve. cbn [bind]. rewrite slice_whole by exact Hl.
    destruct (slice_imul_ok audio curve lo hi Hlo Hhi Hl) as [audio' Ha].
    exists audio'. split; [reflexivity|]. split; [exact Hl|].
    split; [exact Ha|]. split; [exact (slice_imul_length _ _ _ _ _ Ha)|].
    intros i. unfold gain.
    exact (slice_imul_nth audio curve audio' lo hi i Hlo Hhi Hl Ha).
  - exists audio. split; [exact Hcurve|]. split; [exact Hl|].
    split; [reflexivity|]. split; [reflexivity|].
    intros i. specialize (Hc eq_refl).
    destruct (Nat.leb_spec (Z.to_nat lo) i), (Nat.ltb_spec i (Z.to_nat hi));
      cbn [andb]; try reflexivity; lia.
Qed.

(** C5. The gain curves of a cut.  One turn of the loop of [cut_segments],
    for a positive fade duration and a range that converts to the samples
    [s, e) with [s <= e], multiplies the N samples before [s] by a fade-out
    curve and the N' samples from [e] on by a fade-in curve, N and N' being
    the fade span cut to the samples available, and leaves every other
    sample alone.  For N > 1 the fade-out curve starts at exactly 1, ends
    at exactly 0 and never increases; for N' > 1 the fade-in curve starts
    at exactly 0, ends at exactly 1 and never decreases; both are linear
    in the index, and a span of 0 samples has the empty curve and changes
    nothing. *)
Theorem cut_step_fade_curves (sample_rate : Z) (smooth : Q) (audio : list Q)
    (mask : list bool) (t0 t1 : Q) :
  let s := fst (code_range sample_rate (len audio) (t0, t1)) in
  let e := snd (code_range sample_rate (len audio) (t0, t1)) in
  let fade_samples := to_sample sample_rate smooth in
  let fade_start := Z.max 0 (s - fade_samples) in
  let fade_end := Z.min (len audio) (e + fade_samples) in
  let N := (s - fade_start)%Z in
  let N' := (fade_end - e)%Z in
  0 < smooth -> (0 <= sample_rate)%Z -> (s <= e)%Z ->
  exists fade_out fade_in audio',
    linspace 1 0 N = Ok fade_out /\ linspace 0 1 N' = Ok fade_in /\
    length fade_out = Z.to_nat N /\ length fade_in = Z.to_nat N' /\
    cut_step sample_rate smooth (audio, mask) (t0, t1)
      = Ok (audio', slice_fill mask s e false) /\
    length audio' = length audio /\
    (forall k, (k < Z.to_nat N)%nat ->
       nth (Z.to_nat fade_start + k) audio' 0
       = nth (Z.to_nat fade_start + k) audio 0 * gain fade_out k) /\
    (forall k, (k < Z.to_nat N')%nat ->
       nth (Z.to_nat e + k) audio' 0
       = nth (Z.to_nat e + k) audio 0 * gain fade_in k) /\
    (forall i, (i < Z.to_nat fade_start
                \/ Z.to_nat s <= i < Z.to_nat e
                \/ Z.to_nat fade_end <= i)%nat ->
       nth i audio' 0 = nth i audio 0) /\
    ((1 < N)%Z ->
       gain fade_out 0 == 1 /\ gain fade_out (Z.to_nat N - 1) == 0 /\
       non_increasing fade_out /\
       forall k, (k < Z.to_nat N)%nat ->
         gain fade_out k == 1 - inject_Z (Z.of_nat k) / inject_Z (N - 1)) /\
    ((1 < N')%Z ->
       gain fade_in 0 == 0 /\ gain fade_in (Z.to_nat N' - 1) == 1 /\
       non_decreasing fade_in /\
       forall k, (k < Z.to_nat N')%nat ->
         gain fade_in k == inject_Z (Z.of_nat k) / inject_Z (N' - 1)) /\
    (N = 0%Z -> fade_out = []) /\ (N' = 0%Z -> fade_in = []).
Proof.
  intros s e fade_samples fade_start fade_end N N' Hsm Hsr Hse.
  assert (Hf : (0 <= fade_samples)%Z).
  { apply (to_sample_nonneg sample_rate smooth Hsr). lra. }
  assert (HL : (0 <= len audio)%Z) by (unfold len; lia).
  assert (Hs0 : (0 <= s)%Z) by (unfold s, code_range; cbn [fst]; lia).
  assert (HeL : (e <= len audio)%Z) by (unfold e, code_range; cbn [snd]; lia).
  apply Qltb_lt in Hsm.
  destruct (conditional_fade (Qltb 0 smooth && (0 <? s)%Z) audio
              fade_start s 1 0) as (fade_out & a1 & Hout & Hlo & E1 & Hl1 & Hn1).
  { unfold fade_start. lia. }
  { lia. }
  { rewrite Hsm. cbn [andb]. intros H. apply Z.ltb_ge in H.
    unfold fade_start. lia. }
  assert (Hlen1 : len a1 = len audio) by (unfold len; now rewrite Hl1).
  destruct (conditional_fade (Qltb 0 smooth && (e <? len audio)%Z) a1
              e fade_end 0 1) as (fade_in & a2 & Hin & Hli & E2 & Hl2 & Hn2).
  { unfold fade_end. lia. }
  { rewrite Hlen1. unfold fade_end. lia. }
  { rewrite Hsm. cbn [andb]. intros H. apply Z.ltb_ge in H.
    unfold fade_end. lia. }
  exists fade_out, fade_in, a2.
  split; [exact Hout|]. split; [exact Hin|].
  split; [exact Hlo|]. split; [exact Hli|].
  split.
  { clear Hn1 Hn2 Hout Hin Hlo Hli.
    subst N N' fade_end fade_start fade_samples e s.
    unfold code_range, to_sample in *. cbn [fst snd] in *.
    unfold cut_step. rewrite E1. cbn [bind]. rewrite Hlen1, E2. reflexivity. }
  split; [congruence|].
  assert (Hfs : (0 <= fade_start <= s)%Z) by (unfold fade_start; lia).
  assert (Hfe : (e <= fade_end <= len audio)%Z) by (unfold fade_end; lia).
  split.
  { intros k Hk. rewrite Hn2, Hn1.
    set (i := (Z.to_nat fade_start + k)%nat).
    assert (Hi : (Z.to_nat fade_start <= i < Z.to_nat s)%nat)
      by (unfold i, N in *; lia).
    replace (Z.to_nat e <=? i)%nat with false
      by (symmetry; apply Nat.leb_gt; lia).
    replace (Z.to_nat fade_start <=? i)%nat with true
      by (symmetry; apply Nat.leb_le; lia).
    replace (i <? Z.to_nat s)%nat with true
      by (symmetry; apply Nat.ltb_lt; lia).
    cbn [andb]. replace (i - Z.to_nat fade_start)%nat with k by (unfold i; lia).
    reflexivity. }
  split.
  { intros k Hk. rewrite Hn2, Hn1.
    set (i := (Z.to_nat e + k)%nat).
    assert (Hi : (Z.to_nat e <= i < Z.to_nat fade_end)%nat)
      by (unfold i, N' in *; lia).
    replace (Z.to_nat e <=? i)%nat with true
      by (symmetry; apply Nat.leb_le; lia).
    replace (i <? Z.to_nat fade_end)%nat with true
      by (symmetry; apply Nat.ltb_lt; lia).
    replace (i <? Z.to_nat s)%nat with false
      by (symmetry; apply Nat.ltb_ge; lia).
    rewrite andb_false_r. cbn [andb].
    replace (i - Z.to_nat e)%nat with k by (unfold i; lia).
    reflexivity. }
  split.
  { intros i Hi. rewrite Hn2, Hn1.
    destruct (Nat.leb_spec (Z.to_nat e) i),
      (Nat.ltb_spec i (Z.to_nat fade_end)),
      (Nat.leb_spec (Z.to_nat fade_start) i),
      (Nat.ltb_spec i (Z.to_nat s));
      cbn [andb]; try reflexivity; lia. }
  split.
  { intros HN.
    destruct (FadeCurve.linspace_ramps N HN)
      as [(fo & fi & Hfo & _ & _ & _ & G0 & GN & Hmono & _ & _ & _ & Hlin) _].
    assert (fo = fade_out) by (unfold N in Hfo; congruence). subst fo.
    split; [exact G0|]. split; [exact GN|]. split; [exact Hmono|].
    intros k Hk. exact (proj1 (Hlin k Hk)). }
  split.
  { intros HN.
    destruct (FadeCurve.linspace_ramps N' HN)
      as [(fo & fi & _ & Hfi & _ & _ & _ & _ & _ & G0 & GN & Hmono & Hlin) _].
    assert (fi = fade_in) by (unfold N' in Hfi; congruence). subst fi.
    split; [exact G0|]. split; [exact GN|]. split; [exact Hmono|].
    intros k Hk. exact (proj2 (Hlin k Hk)). }
  split.
  - intros HN. unfold N in HN. rewrite HN in Hlo.
    destruct fade_out; [reflexivity|discriminate].
  - intros HN. unfold N' in HN. rewrite HN in Hli.
    destruct fade_in; [reflexivity|discriminate].
Qed.

Lemma cut_step_fade_curves_witness :
  0 < 1 # 2 /\ (0 <= 10)%Z /\
  (fst (code_range 10 (len (ones 20)) (1%Q, 3 # 2))
   <= snd (code_range 10 (len (ones 20)) (1%Q, 3 # 2)))%Z /\
  exists fade_out fade_in audio',
    linspace 1 0 5 = Ok fade_out /\ linspace 0 1 5 = Ok fade_in /\
    cut_step 10 (1 # 2) (ones 20, repeat true 20) (1, 3 # 2)
      = Ok (audio', slice_fill (repeat true 20) 10 15 false) /\
    gain fade_out 0 == 1 /\ gain fade_out 4 == 0 /\ non_increasing fade_out /\
    gain fade_in 0 == 0 /\ gain fade_in 4 == 1 /\ non_decreasing fade_in.
Proof.
  assert (H1 : 0 < 1 # 2) by reflexivity.
  assert (H2 : (0 <= 10)%Z) by lia.
  assert (H3 : (fst (code_range 10 (len (ones 20)) (1%Q, 3 # 2))
                <= snd (code_range 10 (len (ones 20)) (1%Q, 3 # 2)))%Z)
    by (vm_compute; discriminate).
  split; [exact H1|]. split; [exact H2|]. split; [exact H3|].
  destruct (cut_step_fade_curves 10 (1 # 2) (ones 20) (repeat true 20)
              1 (3 # 2) H1 H2 H3)
    as (fo & fi & a' & Hfo & Hfi & _ & _ & Hstep & _ & _ & _ & _
        & Hout & Hin & _).
  exists fo, fi, a'.
  split; [exact Hfo|]. split; [exact Hfi|]. split; [exact Hstep|].
  destruct Hout as (O0 & ON & Omono & _); [vm_compute; reflexivity|].
  destruct Hin as (I0 & IN & Imono & _); [vm_compute; reflexivity|].
  split; [exact O0|]. split; [exact ON|]. split; [exact Omono|].
  split; [exact I0|]. split; [exact IN|exact Imono].
Defined.

End FadeInCode.
